(** * lit-html 1.x forward-compatibility adapter for class-based directives

    A shallow embedding of [src/directive-helpers.ts], [src/lib/directive.ts]
    and [src/async-directive.ts].

    JavaScript objects are modelled by their identity (a reference) and the
    mutable data behind it lives in an explicit [World] that every operation
    threads: the [directives] registry, the [partToInstance] cache of one
    generated directive, the heap of directive instances, the DOM
    connectivity of nodes, and a log of the calls made on legacy parts,
    constructors and [update] methods.

    User code (constructors, [render], [update]) acts on the fields of its
    own instance; values that a directive author pushes later go through
    [AsyncDirective.setValue], which is a step of its own. The adapter is
    given twice: first with constructors that render nothing, then with
    constructors that render binding sites before they return, which is
    where a call of the directive function can nest inside another one,
    between the cache lookup and the cache store. The two agree on the
    classes whose constructors render nothing
    ([directiveFnR_renders_nothing]). *)

From stdpp Require Import gmap strings list fin_maps.

(** ** JavaScript values *)

(** Identity of a heap object. Functions are the objects whose [typeof] is
    ['function']. *)
Inductive ObjRef :=
| FunRef (n : positive)
| PlainRef (n : positive).

Global Instance ObjRef_eq_dec : EqDecision ObjRef.
Proof. solve_decision. Defined.

Global Instance ObjRef_countable : Countable ObjRef.
Proof.
  refine (inj_countable'
            (λ o, match o with FunRef n => inl n | PlainRef n => inr n end)
            (λ s, match s with inl n => FunRef n | inr n => PlainRef n end) _).
  by intros [].
Defined.

Inductive Value :=
| VUndefined
| VNull
| VBoolean (b : bool)
| VNumber (z : Z)
| VString (s : string)
| VObject (o : ObjRef).

Global Instance Value_eq_dec : EqDecision Value.
Proof. solve_decision. Defined.

(** [typeof o === 'function'] *)
Definition typeof_function (o : Value) : bool :=
  match o with
  | VObject (FunRef _) => true
  | _ => false
  end.

(** What a [throw] carries: an [Error] object with its message, or any
    other value thrown by user code. *)
Inductive Exn :=
| Error (message : string)
| Thrown (v : Value).

Inductive Result (A : Type) :=
| Ok (a : A)
| Throw (e : Exn).
Arguments Ok {A} a.
Arguments Throw {A} e.

(** ** directive-helpers.ts *)

(** [export const directives = new WeakMap<object, true>()] *)
Abbreviation Directives := (gmap ObjRef bool).

(** [directives.set(d, true)] *)
Definition directives_set (d : ObjRef) (directives : Directives) : Directives :=
  <[d := true]> directives.

(** [directives.has(o)] *)
Definition directives_has (o : ObjRef) (directives : Directives) : bool :=
  bool_decide (is_Some (directives !! o)).

Definition isDirective (o : Value) (directives : Directives) : bool :=
  typeof_function o &&
  match o with
  | VObject r => directives_has r directives
  | _ => false
  end.

Inductive PartType :=
| ATTRIBUTE
| CHILD
| PROPERTY
| BOOLEAN_ATTRIBUTE
| EVENT
| ELEMENT.

Definition PartType_code (t : PartType) : Z :=
  match t with
  | ATTRIBUTE => 1
  | CHILD => 2
  | PROPERTY => 3
  | BOOLEAN_ATTRIBUTE => 4
  | EVENT => 5
  | ELEMENT => 6
  end.

(** ** Legacy binding sites (lib/part.ts, lib/parts.ts) *)

(** A legacy part is an object of the rendering engine, known by its
    identity. *)
Abbreviation Part := positive (only parsing).
Abbreviation Node := positive (only parsing).

(** The legacy classes the adapter tests with [instanceof]. *)
Inductive PartClass :=
| NodePart
| EventPart
| BooleanAttributePart
| PropertyPart
| AttributePart.

Record Committer := {
  committer_element : option Node;
  committer_name : string;
  committer_strings : option (list string);
}.

(** What the adapter reads of a legacy part: the outcome of each
    [instanceof] test and the accessors of its class. An accessor the
    object does not have reads as [undefined] ([None]). *)
Record LegacyPart := {
  instanceOf : PartClass → bool;
  startNode : option Node;
  element : option Node;
  committer : Committer;
  tagName : string;
}.

(** ** Modern parts and part descriptors *)

Record AttributePartInfo := {
  attr_type : PartType;
  attr_strings : option (list string);
  attr_name : string;
  attr_tagName : string;
}.

Record ChildPartInfo := {
  child_type : PartType;
}.

Inductive PartInfo :=
| OfChild (c : ChildPartInfo)
| OfAttribute (a : AttributePartInfo).

(** Modelled from the spec: the modern Part classes of [lib/parts.ts]
    ([ChildPart], [EventPart], [BooleanAttributePart], [AttributePart] as
    [NextPart]), which are not among the sources. "Each modern Part variant
    wraps exactly one legacy binding site" and "retains a reference to the
    original legacy binding site"; [AsyncDirective] reads that reference as
    [legacyPart]. *)
Inductive NextPartClass :=
| NextChildPart
| NextEventPart
| NextBooleanAttributePart
| NextAttributePart.

Record NextPart := {
  variant : NextPartClass;
  legacyPart : Part;
}.

Global Instance PartClass_eq_dec : EqDecision PartClass.
Proof. solve_decision. Defined.
Global Instance NextPartClass_eq_dec : EqDecision NextPartClass.
Proof. solve_decision. Defined.
Global Instance NextPart_eq_dec : EqDecision NextPart.
Proof. solve_decision. Defined.

Definition new_ChildPart (part : Part) : NextPart :=
  {| variant := NextChildPart; legacyPart := part |}.
Definition new_EventPart (part : Part) : NextPart :=
  {| variant := NextEventPart; legacyPart := part |}.
Definition new_BooleanAttributePart (part : Part) : NextPart :=
  {| variant := NextBooleanAttributePart; legacyPart := part |}.
Definition new_AttributePart (part : Part) : NextPart :=
  {| variant := NextAttributePart; legacyPart := part |}.

(** ** Calls observed from outside *)

Abbreviation InstRef := positive (only parsing).

Inductive Event :=
| ESetValue (part : Part) (value : Value)   (* part.setValue(value) *)
| ECommit (part : Part)                     (* part.commit() *)
| ENew (partInfo : NextPart)                (* new directiveClass(partInfo) *)
| EUpdate (instance : InstRef) (part : NextPart) (props : list Value)
| ETranslate (part : Part) (modernPart : NextPart).
                              (* legacyPartToPart(part) made a new modern Part *)

Global Instance Event_eq_dec : EqDecision Event.
Proof. solve_decision. Defined.

(** ** Directive classes (lib/directive.ts) *)

(** A subclass of [Directive] with instances of state [I]: its constructor
    (which may throw), its [render], and its [update] when it overrides the
    one of [Directive]. A method returns the new state of [this] together
    with its value or the exception it threw. *)
Record DirectiveClass (I : Type) := {
  construct : NextPart → Result I;
  render : list Value → I → I * Result Value;
  update_override : option (NextPart → list Value → I → I * Result Value);
}.
Arguments construct {I} _ _.
Arguments render {I} _ _ _.
Arguments update_override {I} _.

(** [Directive.update(_part, props) { return this.render(...props); }] *)
Definition update {I} (directiveClass : DirectiveClass I)
    (part : NextPart) (props : list Value) (this : I) : I * Result Value :=
  match update_override directiveClass with
  | Some overridden => overridden part props this
  | None => render directiveClass props this
  end.

Section Adapter.
Context {I : Type}.

(** The legacy parts of the rendering engine, by identity. *)
Variable shape : Part → LegacyPart.

(** *** Part classification and translation *)

Definition legacyPartToPart (part : Part) : Result NextPart :=
  if instanceOf (shape part) NodePart then
    Ok (new_ChildPart part)
  else if instanceOf (shape part) EventPart then
    Ok (new_EventPart part)
  else if instanceOf (shape part) BooleanAttributePart then
    Ok (new_BooleanAttributePart part)
  else if instanceOf (shape part) PropertyPart
          || instanceOf (shape part) AttributePart then
    Ok (new_AttributePart part)
  else
    Throw (Error "Unknown part type").

(** Modelled from the spec: the descriptor a modern Part presents to a
    directive's constructor (the getters of [lib/parts.ts], which are not
    among the sources): "the part kind and, for attribute-like kinds, the
    attribute name, owning tag name, and literal string fragments". A
    property-or-attribute part is of kind [PROPERTY] or [ATTRIBUTE]; which
    of the two is taken from the class of the legacy part here, and nothing
    below depends on that choice. *)
Definition partInfo (part : NextPart) : PartInfo :=
  let legacy := shape (legacyPart part) in
  let attribute (type : PartType) :=
    OfAttribute {| attr_type := type;
                   attr_strings := committer_strings (committer legacy);
                   attr_name := committer_name (committer legacy);
                   attr_tagName := tagName legacy |} in
  match variant part with
  | NextChildPart => OfChild {| child_type := CHILD |}
  | NextEventPart => attribute EVENT
  | NextBooleanAttributePart => attribute BOOLEAN_ATTRIBUTE
  | NextAttributePart =>
      attribute (if instanceOf legacy PropertyPart then PROPERTY else ATTRIBUTE)
  end.

(** *** The world the adapter runs in *)

Record World := {
  directives : Directives;                          (* directive-helpers.ts *)
  partToInstance : gmap Part (NextPart * InstRef);  (* of litNextDirective *)
  instances : gmap InstRef I;                       (* directive instances *)
  functions : positive;                             (* next function object *)
  isConnected : Node → bool;                        (* node.isConnected *)
  log : list Event;
}.

Definition set_directives (f : Directives → Directives) (w : World) : World :=
  {| directives := f (directives w); partToInstance := partToInstance w;
     instances := instances w; functions := functions w;
     isConnected := isConnected w; log := log w |}.
Definition set_partToInstance
    (f : gmap Part (NextPart * InstRef) → gmap Part (NextPart * InstRef))
    (w : World) : World :=
  {| directives := directives w; partToInstance := f (partToInstance w);
     instances := instances w; functions := functions w;
     isConnected := isConnected w; log := log w |}.
Definition set_instances (f : gmap InstRef I → gmap InstRef I) (w : World) : World :=
  {| directives := directives w; partToInstance := partToInstance w;
     instances := f (instances w); functions := functions w;
     isConnected := isConnected w; log := log w |}.
Definition set_functions (f : positive → positive) (w : World) : World :=
  {| directives := directives w; partToInstance := partToInstance w;
     instances := instances w; functions := f (functions w);
     isConnected := isConnected w; log := log w |}.
Definition set_isConnected (f : (Node → bool) → (Node → bool)) (w : World) : World :=
  {| directives := directives w; partToInstance := partToInstance w;
     instances := instances w; functions := functions w;
     isConnected := f (isConnected w); log := log w |}.
Definition emit (e : Event) (w : World) : World :=
  {| directives := directives w; partToInstance := partToInstance w;
     instances := instances w; functions := functions w;
     isConnected := isConnected w; log := log w ++ [e] |}.

(** Computations: the world is threaded, and kept as it is when an
    exception is thrown. *)
Definition M (A : Type) : Type := World → World * Result A.

Definition ret {A} (a : A) : M A := λ w, (w, Ok a).
Definition bind {A B} (m : M A) (k : A → M B) : M B :=
  λ w, match m w with
       | (w', Ok a) => k a w'
       | (w', Throw e) => (w', Throw e)
       end.
Definition lift {A} (r : Result A) : M A := λ w, (w, r).
Definition gets {A} (f : World → A) : M A := λ w, (w, Ok (f w)).
Definition modify (f : World → World) : M unit := λ w, (f w, Ok ()).

Local Notation "x <- m ;; k" := (bind m (λ x, k))
  (at level 100, m at next level, right associativity).
Local Notation "m ;;; k" := (bind m (λ _, k))
  (at level 100, right associativity).

(** [part.setValue(value)] and [part.commit()] of a legacy part belong to
    the rendering engine; the calls are recorded. *)
Definition part_setValue (part : Part) (value : Value) : M unit :=
  modify (emit (ESetValue part value)).
Definition part_commit (part : Part) : M unit :=
  modify (emit (ECommit part)).

(** A directive function [(part: Part) => void]: a function object with its
    identity and what a call of it does. *)
Record DirectiveFn := {
  fid : ObjRef;
  call : Part → M unit;
}.

Definition DirectiveFactory : Type := list Value → M DirectiveFn.

(** [new directiveClass(modernPart)] *)
Definition new (directiveClass : DirectiveClass I) (partInfo : NextPart) : M InstRef :=
  λ w,
    let w := emit (ENew partInfo) w in
    match construct directiveClass partInfo with
    | Ok this =>
        let instance := fresh (dom (instances w)) in
        (set_instances <[instance := this]> w, Ok instance)
    | Throw e => (w, Throw e)
    end.

(** [instance.update(modernPart, props)]. An instance reference always
    denotes an object in JavaScript; the last case is there for worlds
    that no run of the adapter produces (see [cache_sound]). *)
Definition instance_update (directiveClass : DirectiveClass I)
    (instance : InstRef) (modernPart : NextPart) (props : list Value) : M Value :=
  λ w,
    match instances w !! instance with
    | Some this =>
        let w := emit (EUpdate instance modernPart props) w in
        let '(this', result) := update directiveClass modernPart props this in
        (set_instances <[instance := this']> w, result)
    | None => (w, Throw (Error "dangling instance"))
    end.

(** The plain-function branch of [directive]: the wrapper
    [(...args) => { const d = factoryOrClass(...args); directives.set(d, true); return d; }] *)
Definition tagging (factoryOrClass : DirectiveFactory) : DirectiveFactory :=
  λ args,
    d <- factoryOrClass args ;;
    modify (set_directives (directives_set (fid d))) ;;;
    ret d.

(** The directive function [(part: Part) => { ... }] that
    [litNextDirective] returns for [props]. *)
Definition directiveFn (directiveClass : DirectiveClass I)
    (props : list Value) (part : Part) : M unit :=
  cached <- gets (λ w, partToInstance w !! part) ;;
  entry <- match cached with
           | None =>
               modernPart <- lift (legacyPartToPart part) ;;
               instance <- new directiveClass modernPart ;;
               modify (set_partToInstance <[part := (modernPart, instance)]>) ;;;
               ret (modernPart, instance)
           | Some cached => ret (cached.1, cached.2)
           end ;;
  value <- instance_update directiveClass entry.2 entry.1 props ;;
  part_setValue part value ;;;
  part_commit part.

(** [litNextDirective(directiveClass)]. Its [partToInstance] is the one of
    the world. The arrow function handed to [directive] has no
    [_$isDirectiveClass$], so [directive] takes its plain-function
    branch. Each call of that arrow function creates a new function
    object. *)
Definition litNextDirective (directiveClass : DirectiveClass I) : DirectiveFactory :=
  tagging (λ props,
    f <- gets functions ;;
    modify (set_functions Pos.succ) ;;;
    ret {| fid := FunRef f; call := directiveFn directiveClass props |}).

Inductive FactoryOrClass :=
| AFactory (f : DirectiveFactory)
| AClass (c : DirectiveClass I).

(** [!!factoryOrClass._$isDirectiveClass$]: the static field that every
    subclass of [Directive] inherits, and that a factory function lacks. *)
Definition isDirectiveClass (factoryOrClass : FactoryOrClass) : bool :=
  match factoryOrClass with
  | AClass _ => true
  | AFactory _ => false
  end.

Definition directive (factoryOrClass : FactoryOrClass) : DirectiveFactory :=
  match factoryOrClass with
  | AClass directiveClass => litNextDirective directiveClass
  | AFactory factory => tagging factory
  end.

End Adapter.


Arguments World : clear implicits.
Arguments M : clear implicits.
Arguments DirectiveFn : clear implicits.
Arguments DirectiveFactory : clear implicits.
Arguments FactoryOrClass : clear implicits.

Notation "x <- m ;; k" := (bind m (λ x, k))
  (at level 100, m at next level, right associativity).
Notation "m ;;; k" := (bind m (λ _, k))
  (at level 100, right associativity).

(** ** async-directive.ts *)

(** The fields [AsyncDirective] adds to an instance. *)
Record AsyncDirective := {
  ddPart : Part;
  renderedYet : bool;
}.

(** [constructor(partInfo) { super(partInfo); this.ddPart = (partInfo as
    NextPart).legacyPart; }], with [renderedYet = false]. *)
Definition AsyncDirective_new (partInfo : NextPart) : AsyncDirective :=
  {| ddPart := legacyPart partInfo; renderedYet := false |}.

Section Async.
Variable shape : Part → LegacyPart.

Definition ddGetNode (this : AsyncDirective) : option Node :=
  if instanceOf (shape (ddPart this)) NodePart then
    startNode (shape (ddPart this))
  else if instanceOf (shape (ddPart this)) EventPart then
    element (shape (ddPart this))
  else if instanceOf (shape (ddPart this)) BooleanAttributePart then
    element (shape (ddPart this))
  else if instanceOf (shape (ddPart this)) PropertyPart
          || instanceOf (shape (ddPart this)) AttributePart then
    committer_element (committer (shape (ddPart this)))
  else
    None.

(** [shouldRender()]: the instance after the call, and what it returned. *)
Definition shouldRender (isConnected : Node → bool) (this : AsyncDirective)
    : AsyncDirective * bool :=
  if negb (renderedYet this) then
    ({| ddPart := ddPart this; renderedYet := true |}, true)
  else
    let node := ddGetNode this in
    if match node with
       | Some node => negb (isConnected node)   (* node != null && !node.isConnected *)
       | None => false
       end
    then (this, false)
    else (this, true).

(** [setValue(value)]: the instance after the call, and the calls it made on
    the legacy part, in order. *)
Definition setValue (isConnected : Node → bool) (value : Value) (this : AsyncDirective)
    : AsyncDirective * list Event :=
  let '(this, render) := shouldRender isConnected this in
  if negb render then
    (this, [])
  else
    (this, [ESetValue (ddPart this) value; ECommit (ddPart this)]).

(** An instance of a subclass of [AsyncDirective]: the private fields of the
    base class and the fields of the subclass. *)
Record AsyncInstance (U : Type) := {
  base : AsyncDirective;
  fields : U;
}.
Arguments base {U} _.
Arguments fields {U} _.

Definition with_base {U} (b : AsyncDirective) (this : AsyncInstance U) : AsyncInstance U :=
  {| base := b; fields := fields this |}.
Definition with_fields {U} (this : AsyncInstance U) (r : U * Result Value)
    : AsyncInstance U * Result Value :=
  ({| base := base this; fields := r.1 |}, r.2).

(** The class [class Sub extends AsyncDirective], from what [Sub] itself
    declares: its constructor runs after the one of [AsyncDirective], and
    its methods leave the private fields of the base class alone. *)
Definition extendsAsyncDirective {U} (sub : DirectiveClass U)
    : DirectiveClass (AsyncInstance U) :=
  {| construct := λ partInfo,
       match construct sub partInfo with
       | Ok u => Ok {| base := AsyncDirective_new partInfo; fields := u |}
       | Throw e => Throw e
       end;
     render := λ props this, with_fields this (render sub props (fields this));
     update_override :=
       match update_override sub with
       | Some overridden =>
           Some (λ part props this, with_fields this (overridden part props (fields this)))
       | None => None
       end |}.

(** [instance.setValue(value)], called by the directive's author on an
    instance of the heap. *)
Definition AsyncDirective_setValue {U} (instance : InstRef) (value : Value)
    : M (AsyncInstance U) unit :=
  λ w,
    match instances w !! instance with
    | Some this =>
        let '(b, calls) := setValue (isConnected w) value (base this) in
        let w := set_instances <[instance := with_base b this]> w in
        (foldl (λ w e, emit e w) w calls, Ok ())
    | None => (w, Throw (Error "dangling instance"))
    end.

End Async.

Arguments base {U} _.
Arguments fields {U} _.
Arguments AsyncDirective_setValue shape {U} _ _ _.

(** ** The rendering engine's use of a generated directive *)

Section Engine.
Context {I : Type}.
Variable shape : Part → LegacyPart.
Variable directiveClass : DirectiveClass I.

(** One render of a binding: the template calls the generated function with
    [props], and the engine calls the directive function it returned with
    the legacy part. *)
Definition renderOnce (props : list Value) (part : Part) : M I unit :=
  d <- directive shape (AClass directiveClass) props ;;
  call d part.

(** Consecutive renders of one binding site; a render that throws does not
    prevent the next one. *)
Fixpoint renderAll (propss : list (list Value)) (part : Part) (w : World I) : World I :=
  match propss with
  | [] => w
  | props :: propss => renderAll propss part (renderOnce props part w).1
  end.

(** The world in which [litNextDirective] has just run:
    [partToInstance = new WeakMap()]. *)
Definition fresh_world (directives : Directives) (instances : gmap InstRef I)
    (functions : positive) (isConnected : Node → bool) (log : list Event) : World I :=
  {| directives := directives; partToInstance := ∅; instances := instances;
     functions := functions; isConnected := isConnected; log := log |}.

(** What can happen to the world: a call of a directive function that the
    generated directive returned, or anything else, which has no access to
    [partToInstance] and deletes no instance. *)
Inductive step : World I → World I → Prop :=
| step_call props part w :
    step w (directiveFn shape directiveClass props part w).1
| step_other w w' :
    partToInstance w' = partToInstance w →
    dom (instances w) ⊆ dom (instances w') →
    step w w'.

Inductive reachable : World I → Prop :=
| reachable_fresh directives instances functions isConnected log :
    reachable (fresh_world directives instances functions isConnected log)
| reachable_step w w' : reachable w → step w w' → reachable w'.

(** Every cache entry holds the translation of its key and an instance of
    the heap. *)
Definition cache_sound (w : World I) : Prop :=
  ∀ part modernPart instance,
    partToInstance w !! part = Some (modernPart, instance) →
    legacyPartToPart shape part = Ok modernPart ∧ is_Some (instances w !! instance).

End Engine.

(** ** Reading the log *)

Definition is_new (e : Event) : bool :=
  match e with ENew _ => true | _ => false end.

(** The constructor calls in a log. *)
Definition constructions (l : list Event) : list Event := List.filter is_new l.

(** The calls made on one legacy part. *)
Definition on_part (part : Part) (e : Event) : bool :=
  match e with
  | ESetValue p _ => bool_decide (p = part)
  | ECommit p => bool_decide (p = part)
  | _ => false
  end.
Definition site_calls (part : Part) (l : list Event) : list Event :=
  List.filter (on_part part) l.

(** The write-back of one render whose [update] gave [r]. *)
Definition write_back (part : Part) (r : Result Value) : list Event :=
  match r with
  | Ok value => [ESetValue part value; ECommit part]
  | Throw _ => []
  end.

(** The outcomes of the consecutive [update] calls on one instance. *)
Fixpoint updates {I} (directiveClass : DirectiveClass I) (modernPart : NextPart)
    (propss : list (list Value)) (this : I) : I * list (Result Value) :=
  match propss with
  | [] => (this, [])
  | props :: propss =>
      let '(this, r) := update directiveClass modernPart props this in
      let '(this, rs) := updates directiveClass modernPart propss this in
      (this, r :: rs)
  end.

(** ** The classification as the specification words it *)

(** "in strict order: child-binding, event-binding,
    boolean-attribute-binding, then property-or-attribute-binding (property
    and plain attribute share translation)" *)
Definition kinds_in_order : list (PartClass * NextPartClass) :=
  [ (NodePart, NextChildPart);
    (EventPart, NextEventPart);
    (BooleanAttributePart, NextBooleanAttributePart);
    (PropertyPart, NextAttributePart);
    (AttributePart, NextAttributePart) ].

Definition classify_spec (legacy : LegacyPart) : option NextPartClass :=
  snd <$> List.find (λ kind, instanceOf legacy kind.1) kinds_in_order.

(** "child → start node, event/boolean-attribute → element,
    property/attribute → committer's element" *)
Definition host_node_spec (legacy : LegacyPart) : option Node :=
  match classify_spec legacy with
  | Some NextChildPart => startNode legacy
  | Some NextEventPart | Some NextBooleanAttributePart => element legacy
  | Some NextAttributePart => committer_element (committer legacy)
  | None => None
  end.

(** ** Worlds along a render *)

(** The world once the generated function has created the directive function
    of this render and [directive] has tagged it. *)
Definition called {I} (w : World I) : World I :=
  set_directives (directives_set (FunRef (functions w))) (set_functions Pos.succ w).

(** The world once [instance.update(modernPart, props)] has run and left
    the instance in state [this]. *)
Definition after_update {I} (instance : InstRef) (modernPart : NextPart)
    (props : list Value) (this : I) (w : World I) : World I :=
  set_instances <[instance := this]> (emit (EUpdate instance modernPart props) w).

(** The world once a new instance in state [this] has been constructed and
    cached for [part]. *)
Definition after_new {I} (part : Part) (modernPart : NextPart) (this : I)
    (w : World I) : World I :=
  set_partToInstance <[part := (modernPart, fresh (dom (instances w)))]>
    (set_instances <[fresh (dom (instances w)) := this]> (emit (ENew modernPart) w)).

(** What consecutive renders of [part] add to the log once its instance is
    cached. *)
Fixpoint hit_log {I} (directiveClass : DirectiveClass I) (instance : InstRef)
    (modernPart : NextPart) (part : Part) (propss : list (list Value)) (this : I)
    : list Event :=
  match propss with
  | [] => []
  | props :: propss =>
      let '(this, r) := update directiveClass modernPart props this in
      EUpdate instance modernPart props
        :: write_back part r ++ hit_log directiveClass instance modernPart part propss this
  end.

(** ** Constructors that render *)

(** The constructor of a directive class is user code that runs between
    [partToInstance.get(part)] and [partToInstance.set(part, ...)], and it
    can render binding sites with the generated directive before it
    returns. [nested earlier partInfo] lists the renders that the
    constructor makes when [earlier] constructor calls of the class came
    before it (a class can count them in a static field). Where the
    adapter above takes the constructor to render nothing, the adapter below
    runs these renders; it also records each modern Part that
    [legacyPartToPart] makes. *)
Abbreviation Nested := (nat → NextPart → list (list Value * Part)).

(** The translation or construction records of one binding site. *)
Definition for_site (part : Part) (e : Event) : bool :=
  match e with
  | ENew partInfo => bool_decide (legacyPart partInfo = part)
  | ETranslate p _ => bool_decide (p = part)
  | _ => false
  end.
Definition site_constructions (part : Part) (l : list Event) : list Event :=
  List.filter (for_site part) l.

(** What a run leaves alone of one binding site: its cache entry, absent or
    present, and its translation and construction records; and the run
    deletes no instance. *)
Definition site_frame {I} (part : Part) (w w' : World I) : Prop :=
  partToInstance w' !! part = partToInstance w !! part
  ∧ site_constructions part (log w') = site_constructions part (log w)
  ∧ dom (instances w) ⊆ dom (instances w').

(** A render of [site] that does not meet a constructor of [part] under
    way: the site is another one, or [part] has its cache entry. *)
Definition settled {I} (part : Part) (w : World I) (site : Part) : Prop :=
  site = part → is_Some (partToInstance w !! part).

Section Rendering.
Context {I : Type}.
Variable shape : Part → LegacyPart.
Variable directiveClass : DirectiveClass I.
Variable nested : Nested.

Fixpoint render_each (render : list Value → Part → M I unit)
    (renders : list (list Value * Part)) : M I unit :=
  match renders with
  | [] => ret ()
  | r :: renders => render r.1 r.2 ;;; render_each render renders
  end.

(** [new directiveClass(modernPart)], the constructor rendering with
    [render]. *)
Definition new_rendering (render : list Value → Part → M I unit) (partInfo : NextPart)
    : M I InstRef :=
  earlier <- gets (λ w, length (constructions (log w))) ;;
  modify (emit (ENew partInfo)) ;;;
  render_each render (nested earlier partInfo) ;;;
  λ w,
    match construct directiveClass partInfo with
    | Ok this =>
        let instance := fresh (dom (instances w)) in
        (set_instances <[instance := this]> w, Ok instance)
    | Throw e => (w, Throw e)
    end.

(** The directive function [(part: Part) => { ... }] of [litNextDirective],
    the constructor rendering with [render]. *)
Definition directiveFn_rendering (render : list Value → Part → M I unit)
    (props : list Value) (part : Part) : M I unit :=
  cached <- gets (λ w, partToInstance w !! part) ;;
  entry <- match cached with
           | None =>
               modernPart <- lift (legacyPartToPart shape part) ;;
               modify (emit (ETranslate part modernPart)) ;;;
               instance <- new_rendering render modernPart ;;
               modify (set_partToInstance <[part := (modernPart, instance)]>) ;;;
               ret (modernPart, instance)
           | Some cached => ret (cached.1, cached.2)
           end ;;
  value <- instance_update directiveClass entry.2 entry.1 props ;;
  part_setValue part value ;;;
  part_commit part.

(** The directive function when renders may nest [depth] deep; one level
    deeper the call stack is exhausted. A nested render goes through the
    generated function, which creates and tags the directive function of
    that render, like any other render. *)
Fixpoint directiveFnR (depth : nat) (props : list Value) (part : Part) {struct depth}
    : M I unit :=
  directiveFn_rendering
    match depth with
    | 0 => λ _ _, lift (Throw (Error "Maximum call stack size exceeded"))
    | S depth =>
        λ props part,
          d <- tagging (λ props,
                 f <- gets functions ;;
                 modify (set_functions Pos.succ) ;;;
                 ret {| fid := FunRef f; call := directiveFnR depth props |}) props ;;
          call d part
    end
    props part.

(** One render of a binding site by the generated directive. *)
Definition renderOnceR (depth : nat) (props : list Value) (part : Part) : M I unit :=
  d <- tagging (λ props,
         f <- gets functions ;;
         modify (set_functions Pos.succ) ;;;
         ret {| fid := FunRef f; call := directiveFnR depth props |}) props ;;
  call d part.

(** What a constructor renders with, [depth] levels of the stack left. *)
Definition nested_render (depth : nat) : list Value → Part → M I unit :=
  match depth with
  | 0 => λ _ _, lift (Throw (Error "Maximum call stack size exceeded"))
  | S depth => renderOnceR depth
  end.

(** Consecutive renders of binding sites; a render that throws does not
    prevent the next one. *)
Fixpoint rendersR (depth : nat) (renders : list (list Value * Part)) (w : World I)
    : World I :=
  match renders with
  | [] => w
  | r :: renders => rendersR depth renders (renderOnceR depth r.1 r.2 w).1
  end.


(** No constructor renders [part] while [part] has no cache entry. *)
Definition allowed (part : Part) (w : World I) : Prop :=
  ∀ earlier partInfo r, r ∈ nested earlier partInfo → settled part w r.2.

(** The world once a new instance in state [this] has been stored and
    cached for [part]. *)
Definition cached_new (part : Part) (modernPart : NextPart) (this : I)
    (w : World I) : World I :=
  set_partToInstance <[part := (modernPart, fresh (dom (instances w)))]>
    (set_instances <[fresh (dom (instances w)) := this]> w).

End Rendering.

(** ** A concrete engine and concrete directive classes *)

Definition legacy (classes : list PartClass) (startNode element hostElement : option Node)
    (name tagName : string) (strings : option (list string)) : LegacyPart :=
  {| instanceOf := λ c, bool_decide (c ∈ classes);
     startNode := startNode;
     element := element;
     committer := {| committer_element := hostElement;
                     committer_name := name;
                     committer_strings := strings |};
     tagName := tagName |}.

(** Five binding sites, one of each legacy class ([PropertyPart] extends
    [AttributePart] in lit-html 1.x), and objects that are no part at all. *)
Definition demo_shape (part : Part) : LegacyPart :=
  match part with
  | 1%positive => legacy [NodePart] (Some 10%positive) None None "text" "DIV" None
  | 2%positive => legacy [EventPart] None (Some 20%positive) None "click" "BUTTON" None
  | 3%positive => legacy [BooleanAttributePart] None (Some 30%positive) None "hidden" "DIV" None
  | 4%positive =>
      legacy [PropertyPart; AttributePart] None None (Some 40%positive)
        "value" "INPUT" (Some ["a"; "b"])
  | 5%positive =>
      legacy [AttributePart] None None (Some 50%positive) "class" "SPAN" (Some ["c"; "d"])
  | _ => legacy [] None None None "none" "NONE" None
  end.

(** A directive that counts its renders and renders its first argument. *)
Definition Echo : DirectiveClass Z :=
  {| construct := λ _, Ok 0%Z;
     render := λ props count,
       ((count + 1)%Z, Ok (match props with value :: _ => value | [] => VUndefined end));
     update_override := None |}.

Definition demo_world {I} (connected : bool) : World I :=
  fresh_world ∅ ∅ 1%positive (λ _, connected) [].

(** A factory that hands out one and the same function at every call. *)
Definition shared_fn : DirectiveFn unit :=
  {| fid := FunRef 7; call := λ _, ret () |}.
Definition constant_factory : DirectiveFactory unit := λ _, ret shared_fn.

(** A factory in the style of the documentation,
    [(v) => (part) => { part.setValue(v); part.commit(); }]: every call
    creates a new function. *)
Definition closure_factory {I} : DirectiveFactory I :=
  λ args,
    f <- gets functions ;;
    modify (set_functions Pos.succ) ;;;
    ret {| fid := FunRef f;
           call := λ part,
             part_setValue part (match args with v :: _ => v | [] => VUndefined end) ;;;
             part_commit part |}.

(** An asynchronous directive bound to the child part, rendered once and
    pushed to once, in a document its host node is not connected to. *)
Definition AsyncEcho : DirectiveClass (AsyncInstance Z) := extendsAsyncDirective Echo.
Definition detached_world : World (AsyncInstance Z) :=
  (AsyncDirective_setValue demo_shape 1%positive (VString "pushed")
     (renderOnce demo_shape AsyncEcho [VString "x"] 1%positive (demo_world false)).1).1.

(** ** Runs of an asynchronous directive *)

(** Consecutive [setValue] calls on one instance, each with the connectivity
    of the DOM at the time of the call. *)
Fixpoint setValues (shape : Part → LegacyPart) (pushes : list ((Node → bool) * Value))
    (this : AsyncDirective) : AsyncDirective * list Event :=
  match pushes with
  | [] => (this, [])
  | push :: pushes =>
      let '(this, calls) := setValue shape push.1 push.2 this in
      let '(this, rest) := setValues shape pushes this in
      (this, calls ++ rest)
  end.

(** The calls a push makes on [part] once the instance is rendered. *)
Definition gated_calls (shape : Part → LegacyPart) (part : Part)
    (push : (Node → bool) * Value) : list Event :=
  match ddGetNode shape {| ddPart := part; renderedYet := true |} with
  | Some node =>
      if push.1 node then [ESetValue part push.2; ECommit part] else []
  | None => [ESetValue part push.2; ECommit part]
  end.

(** What can happen to the world of a generated directive whose class
    extends [AsyncDirective]: the engine calls a directive function, the
    author pushes a value through an instance, or something else happens
    that reaches neither [partToInstance] nor the instances. *)
Inductive async_step {U} (shape : Part → LegacyPart) (sub : DirectiveClass U)
    : World (AsyncInstance U) → World (AsyncInstance U) → Prop :=
| async_call props part w :
    async_step shape sub w (directiveFn shape (extendsAsyncDirective sub) props part w).1
| async_push instance value w :
    async_step shape sub w (AsyncDirective_setValue shape instance value w).1
| async_other w w' :
    partToInstance w' = partToInstance w →
    instances w' = instances w →
    async_step shape sub w w'.

Inductive async_reachable {U} (shape : Part → LegacyPart) (sub : DirectiveClass U)
    : World (AsyncInstance U) → Prop :=
| async_reachable_fresh directives functions isConnected log :
    async_reachable shape sub (fresh_world directives ∅ functions isConnected log)
| async_reachable_step w w' :
    async_reachable shape sub w → async_step shape sub w w' →
    async_reachable shape sub w'.

(** Each cached instance is bound to the binding site it is cached for. *)
Definition bound_to_key {U} (w : World (AsyncInstance U)) : Prop :=
  ∀ part modernPart instance,
    partToInstance w !! part = Some (modernPart, instance) →
    legacyPart modernPart = part
    ∧ ∃ this, instances w !! instance = Some this ∧ ddPart (base this) = part.

(** Two binding sites, the child part and the attribute part, rendered one
    after the other. *)
Definition one_site_world : World Z :=
  (renderOnce demo_shape Echo [VString "a"] 1%positive (demo_world true)).1.
Definition two_sites_world : World Z :=
  (renderOnce demo_shape Echo [VString "b"] 5%positive one_site_world).1.



(** The constructors that render nothing. *)
Definition renders_nothing : Nested := λ _ _, [].

(** A class whose constructor, the first time it runs, renders the binding
    site it is being constructed for. *)
Definition own_site_once : Nested :=
  λ earlier partInfo,
    match earlier with
    | 0 => [([VString "nested"], legacyPart partInfo)]
    | S _ => []
    end.

(** The attribute site rendered once by such a class. *)
Definition reentered_world : World Z :=
  (renderOnceR demo_shape Echo own_site_once 1 [VString "x"] 5%positive (demo_world true)).1.


(** * Theorems *)

(** ** The registry *)

Lemma directives_has_set d o (directives : Directives) :
  directives_has o (directives_set d directives)
  = bool_decide (o = d) || directives_has o directives.
Proof.
  unfold directives_has, directives_set.
  destruct (decide (o = d)) as [->|Hne].
  - rewrite lookup_insert_eq, (bool_decide_eq_true_2 (d = d)) by done.
    done.
  - rewrite lookup_insert_ne by congruence.
    by rewrite (bool_decide_eq_false_2 (o = d)).
Qed.

Lemma directives_has_tagged (tagged : list ObjRef) o :
  directives_has o (foldr directives_set ∅ tagged) = true ↔ o ∈ tagged.
Proof.
  induction tagged as [|d tagged IH]; simpl.
  - unfold directives_has. rewrite lookup_empty, bool_decide_eq_true.
    split; [intros [? [=]] | by intros ?%elem_of_nil].
  - rewrite directives_has_set, orb_true_iff, bool_decide_eq_true, IH.
    rewrite elem_of_cons. tauto.
Qed.

Lemma isDirective_function f (directives : Directives) :
  isDirective (VObject (FunRef f)) directives = directives_has (FunRef f) directives.
Proof. reflexivity. Qed.

Lemma isDirective_true value (directives : Directives) :
  isDirective value directives = true
  ↔ ∃ f, value = VObject (FunRef f) ∧ directives_has (FunRef f) directives = true.
Proof.
  split.
  - destruct value as [| | | | |[f|n]]; simpl; try discriminate. eauto.
  - by intros (f & -> & ?).
Qed.

(** C5: starting from the empty registry, [isDirective] holds of exactly the
    functions that were tagged; a value that was never tagged is no
    directive, and of two functions that behave alike but are different
    objects, tagging one leaves the other untagged. *)
Theorem isDirective_iff_tagged :
  (∀ (tagged : list ObjRef) (value : Value),
     isDirective value (foldr directives_set ∅ tagged) = true
     ↔ ∃ f, value = VObject (FunRef f) ∧ FunRef f ∈ tagged)
  ∧ (∀ (tagged : list ObjRef) (value : Value),
       (∀ o, value = VObject o → o ∉ tagged) →
       isDirective value (foldr directives_set ∅ tagged) = false)
  ∧ (∀ I (f g : DirectiveFn I) (directives : Directives) n,
       call f = call g → fid f = FunRef n → fid g ≠ fid f →
       directives_has (fid g) directives = false →
       isDirective (VObject (fid f)) (directives_set (fid f) directives) = true
       ∧ isDirective (VObject (fid g)) (directives_set (fid f) directives) = false).
Proof.
  split; [|split].
  - intros tagged value. rewrite isDirective_true.
    by setoid_rewrite directives_has_tagged.
  - intros tagged value Hnever. apply not_true_is_false.
    rewrite isDirective_true. setoid_rewrite directives_has_tagged.
    intros (f & -> & Hin). by eapply Hnever.
  - intros I f g directives n _ Hf Hne Hg. split.
    + rewrite Hf, isDirective_function, directives_has_set.
      by rewrite bool_decide_eq_true_2.
    + unfold isDirective. apply andb_false_iff. right.
      rewrite directives_has_set, Hg, orb_false_r.
      by apply bool_decide_eq_false_2.
Qed.

(** ** Classification and translation *)

(** C4: the translator takes the first kind, in the order child, event,
    boolean attribute, property or attribute, whose type test the legacy
    part passes, and returns the modern Part of that kind around this very
    part; a part that passes no test is an unknown part type. *)
Theorem legacyPartToPart_strict_order (shape : Part → LegacyPart) (part : Part) :
  legacyPartToPart shape part
  = match classify_spec (shape part) with
    | Some kind => Ok {| variant := kind; legacyPart := part |}
    | None => Throw (Error "Unknown part type")
    end.
Proof.
  unfold legacyPartToPart, classify_spec, kinds_in_order. simpl.
  repeat (destruct (instanceOf (shape part) _); simpl; try reflexivity).
Qed.

(** ** The class adapter *)

Section AdapterTheory.
Context {I : Type}.
Variable shape : Part → LegacyPart.
Variable directiveClass : DirectiveClass I.

Lemma directiveFn_hit props part w modernPart instance this :
  partToInstance w !! part = Some (modernPart, instance) →
  instances w !! instance = Some this →
  directiveFn shape directiveClass props part w
  = let r := update directiveClass modernPart props this in
    let w1 := after_update instance modernPart props r.1 w in
    match r.2 with
    | Ok value => (emit (ECommit part) (emit (ESetValue part value) w1), Ok ())
    | Throw e => (w1, Throw e)
    end.
Proof.
  intros Hc Hi. unfold directiveFn, bind, gets, instance_update, ret. rewrite Hc. simpl.
  rewrite Hi. destruct (update _ _ _ _) as [this' [value|e]]; reflexivity.
Qed.

Lemma directiveFn_miss props part w :
  partToInstance w !! part = None →
  directiveFn shape directiveClass props part w
  = match legacyPartToPart shape part with
    | Throw e => (w, Throw e)
    | Ok modernPart =>
        match construct directiveClass modernPart with
        | Throw e => (emit (ENew modernPart) w, Throw e)
        | Ok this =>
            directiveFn shape directiveClass props part (after_new part modernPart this w)
        end
    end.
Proof.
  intros Hc. unfold directiveFn at 1. unfold bind, gets, lift, new, modify, ret. rewrite Hc.
  destruct (legacyPartToPart shape part) as [modernPart|e]; [|reflexivity].
  destruct (construct directiveClass modernPart) as [this|e]; [|reflexivity].
  simpl. unfold directiveFn, bind, gets. simpl. rewrite lookup_insert_eq. reflexivity.
Qed.

Lemma after_new_lookup part modernPart this (w : World I) :
  partToInstance (after_new part modernPart this w) !! part
  = Some (modernPart, fresh (dom (instances w)))
  ∧ instances (after_new part modernPart this w) !! fresh (dom (instances w)) = Some this.
Proof. simpl. by rewrite !lookup_insert_eq. Qed.

Lemma fresh_instance (w : World I) : instances w !! fresh (dom (instances w)) = None.
Proof. apply not_elem_of_dom, is_fresh. Qed.

Lemma renderOnce_called props part w :
  renderOnce shape directiveClass props part w
  = directiveFn shape directiveClass props part (called w).
Proof. reflexivity. Qed.

Lemma legacyPartToPart_unknown part :
  (∀ c, instanceOf (shape part) c = false) →
  legacyPartToPart shape part = Throw (Error "Unknown part type").
Proof. intros H. unfold legacyPartToPart. by rewrite !H. Qed.

Lemma legacyPartToPart_known part modernPart :
  legacyPartToPart shape part = Ok modernPart →
  legacyPart modernPart = part ∧ ∃ c, instanceOf (shape part) c = true.
Proof.
  unfold legacyPartToPart.
  destruct (instanceOf (shape part) NodePart) eqn:?; [intros [= <-]; eauto|].
  destruct (instanceOf (shape part) EventPart) eqn:?; [intros [= <-]; eauto|].
  destruct (instanceOf (shape part) BooleanAttributePart) eqn:?; [intros [= <-]; eauto|].
  destruct (instanceOf (shape part) PropertyPart) eqn:?; [intros [= <-]; eauto|].
  destruct (instanceOf (shape part) AttributePart) eqn:?; [intros [= <-]; eauto|].
  discriminate.
Qed.

(** *** The cache along the runs of the adapter *)

Lemma cache_sound_directiveFn props part w :
  cache_sound shape w →
  cache_sound shape (directiveFn shape directiveClass props part w).1.
Proof.
  assert (Hhit : ∀ w modernPart instance this,
             cache_sound shape w →
             partToInstance w !! part = Some (modernPart, instance) →
             instances w !! instance = Some this →
             cache_sound shape (directiveFn shape directiveClass props part w).1).
  { clear w. intros w modernPart instance this Hs Hc Hi.
    rewrite (directiveFn_hit _ _ _ _ _ _ Hc Hi). simpl.
    assert (cache_sound shape
              (after_update instance modernPart props
                 (update directiveClass modernPart props this).1 w)) as Hs'.
    { intros p mp i Hp. simpl in Hp. destruct (Hs p mp i Hp) as [Ht Hsome].
      split; [done|]. simpl. rewrite lookup_insert_is_Some. 
      destruct (decide (instance = i)); auto. }
    destruct (update directiveClass modernPart props this).2; exact Hs'. }
  intros Hs. destruct (partToInstance w !! part) as [[modernPart instance]|] eqn:Hc.
  - destruct (Hs _ _ _ Hc) as [_ [this Hi]]. eauto.
  - rewrite (directiveFn_miss _ _ _ Hc).
    destruct (legacyPartToPart shape part) as [modernPart|e] eqn:Ht; [|done].
    destruct (construct directiveClass modernPart) as [this|e]; [|exact Hs].
    destruct (after_new_lookup part modernPart this w) as [Hc' Hi'].
    eapply Hhit; [|exact Hc'|exact Hi'].
    intros p mp i Hp. simpl in Hp. simpl.
    destruct (decide (part = p)) as [<-|Hne].
    + rewrite lookup_insert_eq in Hp. injection Hp as <- <-.
      split; [done|]. rewrite lookup_insert_eq. eauto.
    + rewrite lookup_insert_ne in Hp by done. destruct (Hs p mp i Hp) as [? Hsome].
      split; [done|]. rewrite lookup_insert_is_Some. 
      destruct (decide (fresh (dom (instances w)) = i)); auto.
Qed.

Lemma cache_sound_step w w' :
  step shape directiveClass w w' → cache_sound shape w → cache_sound shape w'.
Proof.
  destruct 1 as [props part w|w w' Hcache Hdom]; intros Hs.
  - by apply cache_sound_directiveFn.
  - intros p mp i Hp. rewrite Hcache in Hp. destruct (Hs p mp i Hp) as [? Hsome].
    split; [done|]. apply elem_of_dom, Hdom, elem_of_dom, Hsome.
Qed.

Lemma reachable_cache_sound w :
  reachable shape directiveClass w → cache_sound shape w.
Proof.
  induction 1 as [| w w' _ IH Hstep].
  - intros p mp i Hp. simpl in Hp. by rewrite lookup_empty in Hp.
  - by eapply cache_sound_step.
Qed.

(** C3: a legacy object that passes none of the type tests makes the
    translation throw "Unknown part type"; in every world the adapter can be
    in, it has no cache entry, and the directive function called with it
    throws that error and leaves the whole world, the cache included, as it
    was. *)
Theorem unknown_part_throws props part w :
  (∀ c, instanceOf (shape part) c = false) →
  reachable shape directiveClass w →
  legacyPartToPart shape part = Throw (Error "Unknown part type")
  ∧ partToInstance w !! part = None
  ∧ directiveFn shape directiveClass props part w = (w, Throw (Error "Unknown part type"))
  ∧ renderOnce shape directiveClass props part w
    = (called w, Throw (Error "Unknown part type"))
  ∧ partToInstance (called w) = partToInstance w
  ∧ instances (called w) = instances w
  ∧ log (called w) = log w.
Proof.
  intros Hunknown Hreach.
  pose proof (legacyPartToPart_unknown part Hunknown) as Hthrow.
  assert (∀ w : World I, cache_sound shape w → partToInstance w !! part = None) as Hnone.
  { intros w0 Hs. destruct (partToInstance w0 !! part) as [[mp i]|] eqn:Hc; [|done].
    destruct (Hs _ _ _ Hc) as [Ht _]. congruence. }
  apply reachable_cache_sound in Hreach.
  split; [done|]. split; [by apply Hnone|]. split.
  - rewrite directiveFn_miss by by apply Hnone. by rewrite Hthrow.
  - split; [|done]. rewrite renderOnce_called, directiveFn_miss by by apply Hnone.
    by rewrite Hthrow.
Qed.

(** *** Renders of a cached binding site *)

Lemma directiveFn_hit_fields props part w modernPart instance this :
  partToInstance w !! part = Some (modernPart, instance) →
  instances w !! instance = Some this →
  partToInstance (directiveFn shape directiveClass props part w).1 = partToInstance w
  ∧ instances (directiveFn shape directiveClass props part w).1
    = <[instance := (update directiveClass modernPart props this).1]> (instances w)
  ∧ log (directiveFn shape directiveClass props part w).1
    = log w ++ EUpdate instance modernPart props
        :: write_back part (update directiveClass modernPart props this).2
  ∧ isConnected (directiveFn shape directiveClass props part w).1 = isConnected w
  ∧ directives (directiveFn shape directiveClass props part w).1 = directives w.
Proof.
  intros Hc Hi.
  rewrite (directiveFn_hit props part w modernPart instance this Hc Hi). simpl.
  destruct (update directiveClass modernPart props this) as [this' [value|e]]; simpl.
  - repeat split. by rewrite <- !app_assoc.
  - done.
Qed.

Lemma directiveFn_new_fields props part w modernPart this :
  partToInstance w !! part = None →
  legacyPartToPart shape part = Ok modernPart →
  construct directiveClass modernPart = Ok this →
  partToInstance (directiveFn shape directiveClass props part w).1
  = <[part := (modernPart, fresh (dom (instances w)))]> (partToInstance w)
  ∧ instances (directiveFn shape directiveClass props part w).1
    = <[fresh (dom (instances w)) := (update directiveClass modernPart props this).1]>
        (instances w)
  ∧ log (directiveFn shape directiveClass props part w).1
    = log w ++ ENew modernPart :: EUpdate (fresh (dom (instances w))) modernPart props
        :: write_back part (update directiveClass modernPart props this).2
  ∧ isConnected (directiveFn shape directiveClass props part w).1 = isConnected w
  ∧ directives (directiveFn shape directiveClass props part w).1 = directives w.
Proof.
  intros Hc Ht Hnew. rewrite directiveFn_miss by done. rewrite Ht, Hnew.
  destruct (after_new_lookup part modernPart this w) as [Hc' Hi'].
  destruct (directiveFn_hit_fields props part _ _ _ _ Hc' Hi') as (-> & -> & -> & -> & ->).
  simpl. rewrite insert_insert_eq. repeat split. by rewrite <- app_assoc.
Qed.

Lemma renderOnce_hit props part w modernPart instance this :
  partToInstance w !! part = Some (modernPart, instance) →
  instances w !! instance = Some this →
  partToInstance (renderOnce shape directiveClass props part w).1 = partToInstance w
  ∧ instances (renderOnce shape directiveClass props part w).1
    = <[instance := (update directiveClass modernPart props this).1]> (instances w)
  ∧ log (renderOnce shape directiveClass props part w).1
    = log w ++ EUpdate instance modernPart props
        :: write_back part (update directiveClass modernPart props this).2
  ∧ isConnected (renderOnce shape directiveClass props part w).1 = isConnected w.
Proof.
  intros Hc Hi. rewrite renderOnce_called.
  destruct (directiveFn_hit_fields props part (called w) _ _ _ Hc Hi)
    as (-> & -> & -> & -> & _).
  done.
Qed.

Lemma renderAll_hit propss part modernPart instance : ∀ w this,
  partToInstance w !! part = Some (modernPart, instance) →
  instances w !! instance = Some this →
  partToInstance (renderAll shape directiveClass propss part w) = partToInstance w
  ∧ instances (renderAll shape directiveClass propss part w)
    = <[instance := (updates directiveClass modernPart propss this).1]> (instances w)
  ∧ log (renderAll shape directiveClass propss part w)
    = log w ++ hit_log directiveClass instance modernPart part propss this
  ∧ isConnected (renderAll shape directiveClass propss part w) = isConnected w.
Proof.
  induction propss as [|props propss IH]; intros w this Hc Hi; simpl.
  - by rewrite insert_id, app_nil_r.
  - destruct (renderOnce_hit props part w modernPart instance this Hc Hi)
      as (Hc1 & Hi1 & Hl1 & Hd1).
    destruct (update directiveClass modernPart props this) as [this' r] eqn:Hu.
    simpl in Hi1, Hl1.
    destruct (IH (renderOnce shape directiveClass props part w).1 this')
      as (HcN & HiN & HlN & HdN).
    { by rewrite Hc1. }
    { by rewrite Hi1, lookup_insert_eq. }
    rewrite HcN, HiN, HlN, HdN, Hc1, Hi1, Hl1, Hd1.
    destruct (updates directiveClass modernPart propss this') as [thisN rs].
    simpl. rewrite insert_insert_eq. repeat split.
    by rewrite <- app_assoc.
Qed.

Lemma constructions_app l1 l2 :
  constructions (l1 ++ l2) = constructions l1 ++ constructions l2.
Proof. apply List.filter_app. Qed.

Lemma site_calls_app part l1 l2 :
  site_calls part (l1 ++ l2) = site_calls part l1 ++ site_calls part l2.
Proof. apply List.filter_app. Qed.


Lemma constructions_write_back part r : constructions (write_back part r) = [].
Proof. by destruct r. Qed.

Lemma constructions_hit_log instance modernPart part propss : ∀ this,
  constructions (hit_log directiveClass instance modernPart part propss this) = [].
Proof.
  induction propss as [|props propss IH]; intros this; simpl; [done|].
  destruct (update directiveClass modernPart props this) as [this' r]. simpl.
  change (constructions
            (write_back part r
               ++ hit_log directiveClass instance modernPart part propss this') = []).
  by rewrite constructions_app, constructions_write_back, IH.
Qed.


Lemma updates_snoc modernPart props propss : ∀ this,
  (updates directiveClass modernPart (propss ++ [props]) this).1
  = (update directiveClass modernPart props
       (updates directiveClass modernPart propss this).1).1.
Proof.
  induction propss as [|props0 propss IH]; intros this; simpl.
  - by destruct (update directiveClass modernPart props this).
  - destruct (update directiveClass modernPart props0 this) as [this' r].
    specialize (IH this').
    destruct (updates directiveClass modernPart (propss ++ [props]) this').
    destruct (updates directiveClass modernPart propss this'). exact IH.
Qed.

(** The first render of a site, which constructs its instance, followed by
    further renders of the site. *)
Lemma renderAll_new props propss part w modernPart this :
  partToInstance w !! part = None →
  legacyPartToPart shape part = Ok modernPart →
  construct directiveClass modernPart = Ok this →
  partToInstance (renderOnce shape directiveClass props part w).1 !! part
  = Some (modernPart, fresh (dom (instances w)))
  ∧ partToInstance (renderAll shape directiveClass (props :: propss) part w) !! part
    = Some (modernPart, fresh (dom (instances w)))
  ∧ instances (renderAll shape directiveClass (props :: propss) part w)
      !! fresh (dom (instances w))
    = Some (updates directiveClass modernPart (props :: propss) this).1
  ∧ log (renderAll shape directiveClass (props :: propss) part w)
    = log w ++ ENew modernPart
        :: hit_log directiveClass (fresh (dom (instances w))) modernPart part
             (props :: propss) this.
Proof.
  intros Hc Ht Hnew.
  assert (partToInstance (called w) !! part = None) as Hc0 by done.
  rewrite renderOnce_called.
  destruct (directiveFn_new_fields props part (called w) modernPart this Hc0 Ht Hnew)
    as (Hc1 & Hi1 & Hl1 & _).
  change (instances (called w)) with (instances w) in *.
  change (log (called w)) with (log w) in *.
  change (partToInstance (called w)) with (partToInstance w) in *.
  split; [by rewrite Hc1, lookup_insert_eq|].
  simpl renderAll. rewrite renderOnce_called.
  destruct (update directiveClass modernPart props this) as [this' r] eqn:Hu.
  simpl in Hi1, Hl1.
  destruct (renderAll_hit propss part modernPart (fresh (dom (instances w)))
              (directiveFn shape directiveClass props part (called w)).1 this')
    as (HcN & HiN & HlN & _).
  { by rewrite Hc1, lookup_insert_eq. }
  { by rewrite Hi1, lookup_insert_eq. }
  rewrite HcN, HiN, HlN, Hc1, Hl1. simpl. rewrite Hu.
  destruct (updates directiveClass modernPart propss this') as [thisN rs] eqn:HuN.
  simpl. rewrite !lookup_insert_eq. repeat split.
  by rewrite <- app_assoc.
Qed.

(** With a constructor that renders nothing: once the first call for a
    binding site has constructed the instance, that call and any number of
    further renders of the site make exactly one constructor call in all;
    the cache keeps the very same (modern Part, instance) pair, and each
    [update] starts from the state in which the previous one left the
    instance: one more render runs [update] on the state that the instance
    has after the renders so far. *)
Theorem instance_constructed_once props propss part w modernPart this :
  partToInstance w !! part = None →
  legacyPartToPart shape part = Ok modernPart →
  construct directiveClass modernPart = Ok this →
  ∃ instance,
    instances w !! instance = None
    ∧ partToInstance (renderOnce shape directiveClass props part w).1 !! part
      = Some (modernPart, instance)
    ∧ partToInstance (renderAll shape directiveClass (props :: propss) part w) !! part
      = Some (modernPart, instance)
    ∧ constructions (log (renderAll shape directiveClass (props :: propss) part w))
      = constructions (log w) ++ [ENew modernPart]
    ∧ instances (renderAll shape directiveClass (props :: propss) part w) !! instance
      = Some (updates directiveClass modernPart (props :: propss) this).1
    ∧ log (renderAll shape directiveClass (props :: propss) part w)
      = log w ++ ENew modernPart
          :: hit_log directiveClass instance modernPart part (props :: propss) this
    ∧ ∀ next stored,
        instances (renderAll shape directiveClass (props :: propss) part w) !! instance
        = Some stored →
        instances (renderAll shape directiveClass (props :: propss ++ [next]) part w)
          !! instance
        = Some (update directiveClass modernPart next stored).1.
Proof.
  intros Hc Ht Hnew. exists (fresh (dom (instances w))).
  split; [apply fresh_instance|].
  destruct (renderAll_new props propss part w modernPart this Hc Ht Hnew)
    as (Hc1 & HcN & HiN & HlN).
  split; [done|]. split; [done|]. split; [|split; [done|split; [done|]]].
  - rewrite HlN, constructions_app.
    change (ENew modernPart :: ?l) with ([ENew modernPart] ++ l).
    by rewrite constructions_app, constructions_hit_log, app_nil_r.
  - intros next stored Hstored. rewrite HiN in Hstored. injection Hstored as <-.
    destruct (renderAll_new props (propss ++ [next]) part w modernPart this Hc Ht Hnew)
      as (_ & _ & -> & _).
    by rewrite (app_comm_cons propss [next] props), updates_snoc.
Qed.

(** *** One call of the directive function *)

Lemma directiveFn_dangling props part w modernPart instance :
  partToInstance w !! part = Some (modernPart, instance) →
  instances w !! instance = None →
  directiveFn shape directiveClass props part w = (w, Throw (Error "dangling instance")).
Proof.
  intros Hc Hi. unfold directiveFn, bind, gets, instance_update, ret. rewrite Hc. simpl.
  by rewrite Hi.
Qed.

(** A call that does not throw runs [update] on a cached instance: the one
    the cache held, or the one this call constructed and cached. *)
Lemma directiveFn_ok_inv props part w w' :
  directiveFn shape directiveClass props part w = (w', Ok ()) →
  ∃ modernPart instance this w0,
    (w0 = w
     ∨ (w0 = after_new part modernPart this w
        ∧ partToInstance w !! part = None
        ∧ legacyPartToPart shape part = Ok modernPart
        ∧ construct directiveClass modernPart = Ok this))
    ∧ partToInstance w0 !! part = Some (modernPart, instance)
    ∧ instances w0 !! instance = Some this
    ∧ directiveFn shape directiveClass props part w0 = (w', Ok ()).
Proof.
  intros Hrun. destruct (partToInstance w !! part) as [[modernPart instance]|] eqn:Hc.
  - destruct (instances w !! instance) as [this|] eqn:Hi.
    + exists modernPart, instance, this, w. auto.
    + by rewrite (directiveFn_dangling _ _ _ _ _ Hc Hi) in Hrun.
  - rewrite directiveFn_miss in Hrun by done.
    destruct (legacyPartToPart shape part) as [modernPart|e] eqn:Ht; [|done].
    destruct (construct directiveClass modernPart) as [this|e] eqn:Hnew; [|done].
    destruct (after_new_lookup part modernPart this w) as [Hc' Hi'].
    exists modernPart, (fresh (dom (instances w))), this, (after_new part modernPart this w).
    auto 10.
Qed.




(** The adapter never looks at the DOM. *)
Lemma directiveFn_connectivity props part w f :
  directiveFn shape directiveClass props part (set_isConnected f w)
  = (set_isConnected f (directiveFn shape directiveClass props part w).1,
     (directiveFn shape directiveClass props part w).2).
Proof.
  unfold directiveFn, bind, gets, lift, new, instance_update, modify, ret,
    part_setValue, part_commit.
  simpl. destruct (partToInstance w !! part) as [[modernPart instance]|]; simpl.
  - destruct (instances w !! instance) as [this|]; [|done].
    by destruct (update directiveClass modernPart props this) as [this' [value|e]].
  - destruct (legacyPartToPart shape part) as [modernPart|e]; [|done].
    destruct (construct directiveClass modernPart) as [this|e]; [|done].
    simpl. rewrite !lookup_insert_eq.
    by destruct (update directiveClass modernPart props this) as [this' [value|e]].
Qed.

End AdapterTheory.

(** ** The two modes of [directive] *)

Lemma directive_class_mode {I} (shape : Part → LegacyPart) (directiveClass : DirectiveClass I) :
  isDirectiveClass (AClass directiveClass) = true
  ∧ directive shape (AClass directiveClass) = litNextDirective shape directiveClass.
Proof. done. Qed.

(** C6, as the code has it: in plain-function mode [directive] returns the
    wrapper that calls the factory with the arguments it is given, tags the
    object the factory returned and returns that object. It keeps nothing
    from one invocation to the next: each invocation calls the factory
    again, so two invocations return distinct objects exactly when the
    factory does. A returned function satisfies [isDirective]. *)
Theorem plain_wrapper_returns_factory_result {I} (shape : Part → LegacyPart)
    (factory : DirectiveFactory I) :
  isDirectiveClass (AFactory factory) = false
  ∧ (∀ args w,
     directive shape (AFactory factory) args w
     = match factory args w with
       | (w', Ok d) => (set_directives (directives_set (fid d)) w', Ok d)
       | (w', Throw e) => (w', Throw e)
       end)
  ∧ (∀ args w w' d,
       directive shape (AFactory factory) args w = (w', Ok d) →
       isDirective (VObject (fid d)) (directives w') = typeof_function (VObject (fid d)))
  ∧ (∀ args1 args2 w w1 w2 d1 d2,
       directive shape (AFactory factory) args1 w = (w1, Ok d1) →
       directive shape (AFactory factory) args2 w1 = (w2, Ok d2) →
       (∃ v1, factory args1 w = (v1, Ok d1))
       ∧ (∃ v2, factory args2 w1 = (v2, Ok d2))
       ∧ (fid d1 ≠ fid d2 ↔ ∀ v1 v2 e1 e2,
            factory args1 w = (v1, Ok e1) → factory args2 w1 = (v2, Ok e2) →
            fid e1 ≠ fid e2)).
Proof.
  assert (∀ args w,
            directive shape (AFactory factory) args w
            = match factory args w with
              | (w', Ok d) => (set_directives (directives_set (fid d)) w', Ok d)
              | (w', Throw e) => (w', Throw e)
              end) as Hrun.
  { intros args w. simpl. unfold tagging, bind, modify, ret.
    by destruct (factory args w) as [w' [d|e]]. }
  assert (∀ args w w' d,
            directive shape (AFactory factory) args w = (w', Ok d) →
            ∃ v, factory args w = (v, Ok d) ∧ w' = set_directives (directives_set (fid d)) v)
    as Hinv.
  { intros args w w' d. rewrite Hrun.
    destruct (factory args w) as [v [d'|e]]; [|done]. intros [= <- <-]. eauto. }
  split; [done|]. split; [exact Hrun|]. split.
  - intros args w w' d (v & _ & ->)%Hinv. simpl.
    destruct (fid d) as [n|n] eqn:Hd; [|done].
    rewrite isDirective_function, directives_has_set. by rewrite bool_decide_eq_true_2.
  - intros args1 args2 w w1 w2 d1 d2 (v1 & H1 & _)%Hinv (v2 & H2 & _)%Hinv.
    split; [eauto|]. split; [eauto|]. split.
    + intros Hne v1' v2' e1 e2 H1' H2'. congruence.
    + intros Hall. eauto.
Qed.

(** C6 as it is worded fails: the wrapper hands on whatever the factory
    returns, so with a factory that returns one and the same function, two
    invocations return the same object. *)
Lemma plain_wrapper_shares_result :
  (directive demo_shape (AFactory constant_factory) [] (demo_world true)).2 = Ok shared_fn
  ∧ (directive demo_shape (AFactory constant_factory) [VNumber 1]
       (directive demo_shape (AFactory constant_factory) [] (demo_world true)).1).2
    = Ok shared_fn.
Proof. split; reflexivity. Qed.

(** ** The asynchronous directive *)

Lemma ddGetNode_host_node shape this :
  ddGetNode shape this = host_node_spec (shape (ddPart this)).
Proof.
  unfold ddGetNode, host_node_spec, classify_spec, kinds_in_order. simpl.
  repeat (destruct (instanceOf (shape (ddPart this)) _); simpl; try reflexivity).
Qed.

Lemma setValue_first shape isConnected value this :
  renderedYet this = false →
  setValue shape isConnected value this
  = ({| ddPart := ddPart this; renderedYet := true |},
     [ESetValue (ddPart this) value; ECommit (ddPart this)]).
Proof. intros H. unfold setValue, shouldRender. by rewrite H. Qed.

Lemma setValue_rendered shape isConnected value this :
  renderedYet this = true →
  setValue shape isConnected value this
  = (this,
     match ddGetNode shape this with
     | Some node =>
         if isConnected node then [ESetValue (ddPart this) value; ECommit (ddPart this)]
         else []
     | None => [ESetValue (ddPart this) value; ECommit (ddPart this)]
     end).
Proof.
  intros H. unfold setValue, shouldRender. rewrite H. simpl.
  destruct (ddGetNode shape this) as [node|]; [|done].
  by destruct (isConnected node).
Qed.

Lemma log_emit_all {I} (calls : list Event) : ∀ w : World I,
  log (foldl (λ w e, emit e w) w calls) = log w ++ calls
  ∧ partToInstance (foldl (λ w e, emit e w) w calls) = partToInstance w
  ∧ instances (foldl (λ w e, emit e w) w calls) = instances w.
Proof.
  induction calls as [|e calls IH]; intros w; simpl.
  - by rewrite app_nil_r.
  - destruct (IH (emit e w)) as (-> & -> & ->). simpl. by rewrite <- app_assoc.
Qed.

Lemma AsyncDirective_setValue_run shape {U} (w : World (AsyncInstance U)) instance this value :
  instances w !! instance = Some this →
  (AsyncDirective_setValue shape instance value w).2 = Ok ()
  ∧ log (AsyncDirective_setValue shape instance value w).1
    = log w ++ (setValue shape (isConnected w) value (base this)).2
  ∧ instances (AsyncDirective_setValue shape instance value w).1
    = <[instance := with_base (setValue shape (isConnected w) value (base this)).1 this]>
        (instances w)
  ∧ partToInstance (AsyncDirective_setValue shape instance value w).1 = partToInstance w.
Proof.
  intros Hi. unfold AsyncDirective_setValue. rewrite Hi.
  destruct (setValue shape (isConnected w) value (base this)) as [b calls]. simpl.
  split; [done|].
  by destruct (log_emit_all calls (set_instances <[instance:=with_base b this]> w))
    as (-> & -> & ->).
Qed.

(** C7: the first [setValue] of an instance, whose [renderedYet] is still
    false, calls [setValue] and then [commit] on the legacy part, whatever
    the connectivity of the DOM, and leaves the instance rendered; so does
    the call on an instance of the heap, which throws nothing. *)
Theorem first_setValue_commits shape connected value this :
  renderedYet this = false →
  setValue shape connected value this
  = ({| ddPart := ddPart this; renderedYet := true |},
     [ESetValue (ddPart this) value; ECommit (ddPart this)])
  ∧ renderedYet (setValue shape connected value this).1 = true
  ∧ (∀ partInfo, renderedYet (AsyncDirective_new partInfo) = false)
  ∧ (∀ U (w : World (AsyncInstance U)) instance stored,
       instances w !! instance = Some stored →
       base stored = this →
       (AsyncDirective_setValue shape instance value w).2 = Ok ()
       ∧ log (AsyncDirective_setValue shape instance value w).1
         = log w ++ [ESetValue (ddPart this) value; ECommit (ddPart this)]
       ∧ instances (AsyncDirective_setValue shape instance value w).1 !! instance
         = Some (with_base {| ddPart := ddPart this; renderedYet := true |} stored)).
Proof.
  intros H. rewrite (setValue_first shape connected value this H).
  split; [done|]. split; [done|]. split; [done|].
  intros U w instance stored Hi <-.
  destruct (AsyncDirective_setValue_run shape w instance stored value Hi)
    as (-> & -> & -> & _).
  rewrite (setValue_first shape (isConnected w) value (base stored) H).
  by rewrite lookup_insert_eq.
Qed.

(** C8: on a rendered instance, [setValue] resolves the host node by the
    kind of the legacy part (start node of a child part, element of an event
    or boolean attribute part, the committer's element of a property or
    attribute part); when there is a node and it is not connected, no call
    is made on the legacy part and nothing is thrown, and otherwise
    [setValue] and [commit] are forwarded. *)
Theorem rendered_setValue_gated shape connected value this :
  renderedYet this = true →
  ddGetNode shape this = host_node_spec (shape (ddPart this))
  ∧ setValue shape connected value this
    = (this,
       match host_node_spec (shape (ddPart this)) with
       | Some node =>
           if connected node then [ESetValue (ddPart this) value; ECommit (ddPart this)]
           else []
       | None => [ESetValue (ddPart this) value; ECommit (ddPart this)]
       end)
  ∧ (∀ U (w : World (AsyncInstance U)) instance stored,
       instances w !! instance = Some stored →
       base stored = this →
       (AsyncDirective_setValue shape instance value w).2 = Ok ()
       ∧ log (AsyncDirective_setValue shape instance value w).1
         = log w ++
             match host_node_spec (shape (ddPart this)) with
             | Some node =>
                 if isConnected w node
                 then [ESetValue (ddPart this) value; ECommit (ddPart this)]
                 else []
             | None => [ESetValue (ddPart this) value; ECommit (ddPart this)]
             end).
Proof.
  intros H. split; [apply ddGetNode_host_node|]. split.
  - by rewrite (setValue_rendered shape connected value this H), ddGetNode_host_node.
  - intros U w instance stored Hi <-.
    destruct (AsyncDirective_setValue_run shape w instance stored value Hi)
      as (-> & -> & _).
    by rewrite (setValue_rendered shape (isConnected w) value (base stored) H),
      ddGetNode_host_node.
Qed.

(** C10: the write-back of the adapter is not gated. Every call of the
    directive function that does not throw ends with [setValue] and [commit]
    on the legacy part, and what the call does is the same whatever the
    connectivity of the DOM; in a world where the host node of a rendered
    asynchronous directive is detached, a render still writes the value of
    [update] back, while a value pushed through [AsyncDirective.setValue] is
    dropped. *)
Theorem write_back_not_gated :
  (∀ I shape (directiveClass : DirectiveClass I) props part w w',
     directiveFn shape directiveClass props part w = (w', Ok ()) →
     ∃ value before, log w' = before ++ [ESetValue part value; ECommit part])
  ∧ (∀ I shape (directiveClass : DirectiveClass I) props part w f,
       directiveFn shape directiveClass props part (set_isConnected f w)
       = (set_isConnected f (directiveFn shape directiveClass props part w).1,
          (directiveFn shape directiveClass props part w).2))
  ∧ (∀ U shape (sub : DirectiveClass U) props part w modernPart instance this
       node value pushed,
       partToInstance w !! part = Some (modernPart, instance) →
       instances w !! instance = Some this →
       renderedYet (base this) = true →
       ddGetNode shape (base this) = Some node →
       isConnected w node = false →
       (update (extendsAsyncDirective sub) modernPart props this).2 = Ok value →
       (directiveFn shape (extendsAsyncDirective sub) props part w).2 = Ok ()
       ∧ log (directiveFn shape (extendsAsyncDirective sub) props part w).1
         = log w ++ [EUpdate instance modernPart props; ESetValue part value; ECommit part]
       ∧ (AsyncDirective_setValue shape instance pushed w).2 = Ok ()
       ∧ log (AsyncDirective_setValue shape instance pushed w).1 = log w).
Proof.
  split; [|split].
  - intros I shape directiveClass props part w w' Hrun.
    destruct (directiveFn_ok_inv shape directiveClass props part w w' Hrun)
      as (modernPart & instance & this & w0 & _ & Hc & Hi & Hrun0).
    pose proof (directiveFn_hit shape directiveClass props part w0 _ _ _ Hc Hi) as Hhit.
    rewrite Hrun0 in Hhit. simpl in Hhit.
    destruct (update directiveClass modernPart props this) as [this' [value|e]];
      simpl in Hhit; [|done].
    injection Hhit as ->. simpl.
    exists value, (log w0 ++ [EUpdate instance modernPart props]).
    by rewrite <- !app_assoc.
  - intros. apply directiveFn_connectivity.
  - intros U shape sub props part w modernPart instance this node value pushed
      Hc Hi Hrendered Hnode Hdetached Hvalue.
    destruct (directiveFn_hit_fields shape (extendsAsyncDirective sub) props part w
                _ _ _ Hc Hi) as (_ & _ & Hlog & _).
    rewrite (directiveFn_hit shape (extendsAsyncDirective sub) props part w _ _ _ Hc Hi)
      in *.
    simpl in *. rewrite Hvalue in *. simpl in *.
    split; [done|]. split; [done|].
    destruct (AsyncDirective_setValue_run shape w instance this pushed Hi)
      as (Hok & Hpush & _).
    split; [done|]. rewrite Hpush, (setValue_rendered _ _ _ _ Hrendered), Hnode, Hdetached.
    simpl. by rewrite app_nil_r.
Qed.

(** ** The theorems at concrete inputs *)

(** The end-to-end scenario: an attribute site rendered with "x" and then
    with "y". *)
Example attribute_site_rendered_twice :
  log (renderAll demo_shape Echo [[VString "x"]; [VString "y"]] 5%positive (demo_world true))
  = [ENew (new_AttributePart 5);
     EUpdate 1 (new_AttributePart 5) [VString "x"];
     ESetValue 5 (VString "x"); ECommit 5;
     EUpdate 1 (new_AttributePart 5) [VString "y"];
     ESetValue 5 (VString "y"); ECommit 5].
Proof. reflexivity. Qed.

Lemma instance_constructed_once_witness :
  partToInstance (demo_world (I:=Z) true) !! 5%positive = None
  ∧ legacyPartToPart demo_shape 5 = Ok (new_AttributePart 5)
  ∧ construct Echo (new_AttributePart 5) = Ok 0%Z
  ∧ constructions
      (log (renderAll demo_shape Echo [[VString "x"]; [VString "y"]] 5%positive
              (demo_world true)))
    = [ENew (new_AttributePart 5)]
  ∧ ∃ instance,
      partToInstance
        (renderAll demo_shape Echo [[VString "x"]; [VString "y"]] 5%positive
           (demo_world true)) !! 5%positive
      = Some (new_AttributePart 5, instance)
      ∧ instances
          (renderAll demo_shape Echo [[VString "x"]; [VString "y"]] 5%positive
             (demo_world true)) !! instance
        = Some 2%Z.
Proof.
  split; [reflexivity|]. split; [reflexivity|]. split; [reflexivity|].
  destruct (instance_constructed_once demo_shape Echo [VString "x"] [[VString "y"]]
              5%positive (demo_world true) (new_AttributePart 5) 0%Z)
    as (instance & _ & _ & Hcache & Hnew & Hstate & _); [reflexivity..|].
  split; [exact Hnew|]. exists instance. split; [exact Hcache|exact Hstate].
Defined.


Lemma unknown_part_throws_witness :
  (∀ c, instanceOf (demo_shape 9) c = false)
  ∧ reachable demo_shape Echo (demo_world true)
  ∧ directiveFn demo_shape Echo [VString "x"] 9%positive (demo_world true)
    = (demo_world true, Throw (Error "Unknown part type")).
Proof.
  assert (∀ c, instanceOf (demo_shape 9) c = false) as Hunknown by (by intros []).
  assert (reachable demo_shape Echo (demo_world true)) as Hreach by apply reachable_fresh.
  split; [exact Hunknown|]. split; [exact Hreach|].
  exact (proj1 (proj2 (proj2
    (unknown_part_throws demo_shape Echo [VString "x"] 9%positive (demo_world true)
       Hunknown Hreach)))).
Defined.

Lemma isDirective_iff_tagged_witness :
  isDirective (VObject (FunRef 7)) (directives_set (FunRef 7) ∅) = true
  ∧ isDirective (VObject (FunRef 8)) (directives_set (FunRef 7) ∅) = false.
Proof.
  apply (proj2 (proj2 isDirective_iff_tagged) unit shared_fn
           {| fid := FunRef 8; call := call shared_fn |} ∅ 7%positive);
    [reflexivity|reflexivity|discriminate|reflexivity].
Defined.

Lemma plain_wrapper_returns_factory_result_witness :
  ∃ w1 w2 d1 d2,
    directive demo_shape (AFactory closure_factory) [VString "x"] (demo_world (I:=unit) true)
    = (w1, Ok d1)
    ∧ directive demo_shape (AFactory closure_factory) [VString "y"] w1 = (w2, Ok d2)
    ∧ isDirective (VObject (fid d1)) (directives w1) = true
    ∧ isDirective (VObject (fid d2)) (directives w2) = true
    ∧ fid d1 ≠ fid d2.
Proof.
  eexists _, _, _, _. split; [reflexivity|]. split; [reflexivity|].
  split; [|split].
  - exact (proj1 (proj2 (proj2
             (plain_wrapper_returns_factory_result demo_shape closure_factory)))
             [VString "x"] (demo_world true) _ _ eq_refl).
  - exact (proj1 (proj2 (proj2
             (plain_wrapper_returns_factory_result demo_shape closure_factory)))
             [VString "y"] _ _ _ eq_refl).
  - discriminate.
Defined.

Lemma first_setValue_commits_witness :
  renderedYet (AsyncDirective_new (new_ChildPart 1)) = false
  ∧ setValue demo_shape (λ _, false) (VString "v") (AsyncDirective_new (new_ChildPart 1))
    = ({| ddPart := 1; renderedYet := true |}, [ESetValue 1 (VString "v"); ECommit 1]).
Proof.
  split; [reflexivity|].
  apply (first_setValue_commits demo_shape (λ _, false) (VString "v")
           (AsyncDirective_new (new_ChildPart 1))).
  reflexivity.
Defined.

Lemma rendered_setValue_gated_witness :
  renderedYet {| ddPart := 4; renderedYet := true |} = true
  ∧ setValue demo_shape (λ _, false) (VString "v") {| ddPart := 4; renderedYet := true |}
    = ({| ddPart := 4; renderedYet := true |}, [])
  ∧ setValue demo_shape (λ _, true) (VString "v") {| ddPart := 4; renderedYet := true |}
    = ({| ddPart := 4; renderedYet := true |}, [ESetValue 4 (VString "v"); ECommit 4]).
Proof.
  split; [reflexivity|]. split.
  - apply (rendered_setValue_gated demo_shape (λ _, false) (VString "v")
             {| ddPart := 4; renderedYet := true |}).
    reflexivity.
  - apply (rendered_setValue_gated demo_shape (λ _, true) (VString "v")
             {| ddPart := 4; renderedYet := true |}).
    reflexivity.
Defined.


Lemma write_back_not_gated_witness :
  partToInstance detached_world !! 1%positive = Some (new_ChildPart 1, 1%positive)
  ∧ instances detached_world !! 1%positive
    = Some {| base := {| ddPart := 1; renderedYet := true |}; fields := 1%Z |}
  ∧ ddGetNode demo_shape {| ddPart := 1; renderedYet := true |} = Some 10%positive
  ∧ isConnected detached_world 10%positive = false
  ∧ log (directiveFn demo_shape AsyncEcho [VString "y"] 1%positive detached_world).1
    = log detached_world
        ++ [EUpdate 1 (new_ChildPart 1) [VString "y"]; ESetValue 1 (VString "y"); ECommit 1]
  ∧ log (AsyncDirective_setValue demo_shape 1 (VString "late") detached_world).1
    = log detached_world.
Proof.
  split; [reflexivity|]. split; [reflexivity|]. split; [reflexivity|]. split; [reflexivity|].
  destruct (proj2 (proj2 write_back_not_gated) Z demo_shape Echo [VString "y"] 1%positive
              detached_world (new_ChildPart 1) 1%positive
              {| base := {| ddPart := 1; renderedYet := true |}; fields := 1%Z |}
              10%positive (VString "y") (VString "late"))
    as (_ & Hrender & _ & Hpush); [reflexivity..|].
  split; [exact Hrender|exact Hpush].
Defined.

(** * Further properties of the adapter *)

Section AdapterFrame.
Context {I : Type}.
Variable shape : Part → LegacyPart.
Variable directiveClass : DirectiveClass I.

(** The five ways a call of the directive function can go. *)
Lemma directiveFn_cases props part (w : World I) :
  (∃ modernPart instance this,
     partToInstance w !! part = Some (modernPart, instance)
     ∧ instances w !! instance = Some this
     ∧ (directiveFn shape directiveClass props part w).1
       = foldl (λ w e, emit e w)
           (after_update instance modernPart props
              (update directiveClass modernPart props this).1 w)
           (write_back part (update directiveClass modernPart props this).2))
  ∨ (is_Some (partToInstance w !! part)
     ∧ directiveFn shape directiveClass props part w
       = (w, Throw (Error "dangling instance")))
  ∨ (partToInstance w !! part = None
     ∧ ∃ e, legacyPartToPart shape part = Throw e
            ∧ directiveFn shape directiveClass props part w = (w, Throw e))
  ∨ (partToInstance w !! part = None
     ∧ ∃ modernPart e,
         legacyPartToPart shape part = Ok modernPart
         ∧ construct directiveClass modernPart = Throw e
         ∧ directiveFn shape directiveClass props part w
           = (emit (ENew modernPart) w, Throw e))
  ∨ (partToInstance w !! part = None
     ∧ ∃ modernPart this,
         legacyPartToPart shape part = Ok modernPart
         ∧ construct directiveClass modernPart = Ok this
         ∧ (directiveFn shape directiveClass props part w).1
           = foldl (λ w e, emit e w)
               (after_update (fresh (dom (instances w))) modernPart props
                  (update directiveClass modernPart props this).1
                  (after_new part modernPart this w))
               (write_back part (update directiveClass modernPart props this).2)).
Proof.
  assert (∀ w modernPart instance this,
            partToInstance w !! part = Some (modernPart, instance) →
            instances w !! instance = Some this →
            (directiveFn shape directiveClass props part w).1
            = foldl (λ w e, emit e w)
                (after_update instance modernPart props
                   (update directiveClass modernPart props this).1 w)
                (write_back part (update directiveClass modernPart props this).2)) as Hhit.
  { clear w. intros w modernPart instance this Hc Hi.
    rewrite (directiveFn_hit shape directiveClass props part w _ _ _ Hc Hi). simpl.
    by destruct (update directiveClass modernPart props this) as [this' [value|e]]. }
  destruct (partToInstance w !! part) as [[modernPart instance]|] eqn:Hc.
  - destruct (instances w !! instance) as [this|] eqn:Hi.
    + left. exists modernPart, instance, this. auto.
    + right; left. split; [eauto|]. by eapply directiveFn_dangling.
  - do 2 right. rewrite (directiveFn_miss shape directiveClass props part w Hc).
    destruct (legacyPartToPart shape part) as [modernPart|e] eqn:Ht; [|left; eauto].
    right.
    destruct (construct directiveClass modernPart) as [this|e] eqn:Hnew; [|left; eauto 10].
    right. split; [done|]. exists modernPart, this. split; [done|]. split; [done|].
    destruct (after_new_lookup part modernPart this w) as [Hc' Hi'].
    apply (Hhit _ _ _ _ Hc' Hi').
Qed.

Lemma emit_all_fields (calls : list Event) (w : World I) :
  directives (foldl (λ w e, emit e w) w calls) = directives w
  ∧ functions (foldl (λ w e, emit e w) w calls) = functions w
  ∧ isConnected (foldl (λ w e, emit e w) w calls) = isConnected w.
Proof.
  revert w. induction calls as [|e calls IH]; intros w; simpl; [done|].
  by destruct (IH (emit e w)) as (-> & -> & ->).
Qed.

Lemma site_calls_write_back_other part q r :
  q ≠ part → site_calls q (write_back part r) = [].
Proof.
  intros Hne. destruct r; simpl; [|done]. by rewrite !bool_decide_eq_false_2.
Qed.

(** What a call of the directive function for [part] leaves alone. *)
Lemma directiveFn_frame props part (w : World I) :
  directives (directiveFn shape directiveClass props part w).1 = directives w
  ∧ functions (directiveFn shape directiveClass props part w).1 = functions w
  ∧ isConnected (directiveFn shape directiveClass props part w).1 = isConnected w
  ∧ (∀ q, q ≠ part →
       partToInstance (directiveFn shape directiveClass props part w).1 !! q
       = partToInstance w !! q)
  ∧ (∀ entry, partToInstance w !! part = Some entry →
       partToInstance (directiveFn shape directiveClass props part w).1 !! part
       = Some entry)
  ∧ (∀ j, (∀ modernPart,
             partToInstance (directiveFn shape directiveClass props part w).1 !! part
             ≠ Some (modernPart, j)) →
       instances (directiveFn shape directiveClass props part w).1 !! j
       = instances w !! j)
  ∧ (∀ q, q ≠ part →
       site_calls q (log (directiveFn shape directiveClass props part w).1)
       = site_calls q (log w))
  ∧ dom (instances w) ⊆ dom (instances (directiveFn shape directiveClass props part w).1).
Proof.
  destruct (directiveFn_cases props part w)
    as [(mp & i & this & Hc & Hi & ->)
       |[(_ & ->)
        |[(Hc & e & _ & ->)
         |[(Hc & mp & e & _ & _ & ->)
          |(Hc & mp & this & _ & _ & ->)]]]]; simpl.
  - destruct (emit_all_fields
                (write_back part (update directiveClass mp props this).2)
                (after_update i mp props (update directiveClass mp props this).1 w))
      as (-> & -> & ->).
    destruct (log_emit_all
                (write_back part (update directiveClass mp props this).2)
                (after_update i mp props (update directiveClass mp props this).1 w))
      as (-> & -> & ->). simpl.
    repeat split; try done.
    + intros j Hj. rewrite lookup_insert_ne; [done|]. intros <-. by eapply Hj.
    + intros q Hne. rewrite !site_calls_app. simpl.
      by rewrite site_calls_write_back_other, !app_nil_r.
    + rewrite dom_insert_L. set_solver.
  - repeat split; done.
  - repeat split; done.
  - repeat split; try done. intros q Hne. rewrite site_calls_app. simpl.
    by rewrite app_nil_r.
  - destruct (emit_all_fields
                (write_back part (update directiveClass mp props this).2)
                (after_update (fresh (dom (instances w))) mp props
                   (update directiveClass mp props this).1 (after_new part mp this w)))
      as (-> & -> & ->).
    destruct (log_emit_all
                (write_back part (update directiveClass mp props this).2)
                (after_update (fresh (dom (instances w))) mp props
                   (update directiveClass mp props this).1 (after_new part mp this w)))
      as (-> & -> & ->). simpl.
    repeat split; try done.
    + intros q Hne. by rewrite lookup_insert_ne.
    + intros entry. by rewrite Hc.
    + intros j Hj. rewrite !lookup_insert_ne; [done|..];
        intros <-; eapply Hj; by rewrite lookup_insert_eq.
    + intros q Hne. rewrite !site_calls_app. simpl.
      by rewrite site_calls_write_back_other, !app_nil_r.
    + rewrite !dom_insert_L. set_solver.
Qed.

Lemma directiveFn_cache props part (w : World I) :
  partToInstance (directiveFn shape directiveClass props part w).1 = partToInstance w
  ∨ (partToInstance w !! part = None
     ∧ ∃ modernPart,
         legacyPartToPart shape part = Ok modernPart
         ∧ partToInstance (directiveFn shape directiveClass props part w).1
           = <[part := (modernPart, fresh (dom (instances w)))]> (partToInstance w)).
Proof.
  destruct (directiveFn_cases props part w)
    as [(mp & i & this & Hc & Hi & ->)
       |[(_ & ->)
        |[(Hc & e & _ & ->)
         |[(Hc & mp & e & _ & _ & ->)
          |(Hc & mp & this & Ht & _ & ->)]]]]; simpl; auto.
  - left. by destruct (log_emit_all
                (write_back part (update directiveClass mp props this).2)
                (after_update i mp props (update directiveClass mp props this).1 w))
      as (_ & -> & _).
  - right. split; [done|]. exists mp. split; [done|].
    by destruct (log_emit_all
                (write_back part (update directiveClass mp props this).2)
                (after_update (fresh (dom (instances w))) mp props
                   (update directiveClass mp props this).1 (after_new part mp this w)))
      as (_ & -> & _).
Qed.

Lemma step_cache_injective w w' :
  step shape directiveClass w w' →
  cache_sound shape w →
  (∀ p q mp mq i,
     partToInstance w !! p = Some (mp, i) → partToInstance w !! q = Some (mq, i) → p = q) →
  ∀ p q mp mq i,
    partToInstance w' !! p = Some (mp, i) → partToInstance w' !! q = Some (mq, i) → p = q.
Proof.
  destruct 1 as [props part w|w w' Hcache _]; intros Hs Hinj p q mp mq i.
  - destruct (directiveFn_cache props part w) as [->|(Hc & mpart & _ & ->)]; [apply Hinj|].
    assert (∀ r mr, partToInstance w !! r ≠ Some (mr, fresh (dom (instances w)))) as Hfresh.
    { intros r mr Hr. destruct (Hs _ _ _ Hr) as [_ Hsome].
      apply elem_of_dom in Hsome. by apply is_fresh in Hsome. }
    destruct (decide (part = p)) as [<-|Hp], (decide (part = q)) as [<-|Hq]; [done|..].
    + rewrite lookup_insert_eq, lookup_insert_ne by done.
      intros [= <- <-] Hq'. by apply Hfresh in Hq'.
    + rewrite lookup_insert_eq, lookup_insert_ne by done.
      intros Hp' [= <- <-]. by apply Hfresh in Hp'.
    + rewrite !lookup_insert_ne by done. apply Hinj.
  - rewrite Hcache. apply Hinj.
Qed.

Lemma reachable_cache_injective w :
  reachable shape directiveClass w →
  ∀ p q mp mq i,
    partToInstance w !! p = Some (mp, i) → partToInstance w !! q = Some (mq, i) → p = q.
Proof.
  induction 1 as [| w w' Hreach IH Hstep].
  - intros p q mp mq i Hp. simpl in Hp. by rewrite lookup_empty in Hp.
  - eapply step_cache_injective; [done| |done]. by eapply reachable_cache_sound.
Qed.

Lemma reachable_renderOnce props part w :
  reachable shape directiveClass w →
  reachable shape directiveClass (renderOnce shape directiveClass props part w).1.
Proof.
  intros Hreach. rewrite renderOnce_called.
  eapply reachable_step; [|apply step_call].
  eapply reachable_step; [exact Hreach|]. by apply step_other.
Qed.

(** X1: in every world the adapter can be in, each entry of [partToInstance]
    holds the translation of its key, a modern Part around that very part,
    and an instance that exists; and no two binding sites share an
    instance. *)
Theorem cache_invariant w :
  reachable shape directiveClass w →
  (∀ part modernPart instance,
     partToInstance w !! part = Some (modernPart, instance) →
     legacyPartToPart shape part = Ok modernPart
     ∧ legacyPart modernPart = part
     ∧ is_Some (instances w !! instance))
  ∧ (∀ p q mp mq instance,
       partToInstance w !! p = Some (mp, instance) →
       partToInstance w !! q = Some (mq, instance) →
       p = q).
Proof.
  intros Hreach. split.
  - intros part modernPart instance Hc.
    destruct (reachable_cache_sound shape directiveClass w Hreach _ _ _ Hc) as [Ht Hsome].
    by destruct (legacyPartToPart_known shape part modernPart Ht) as [Hpart _].
  - by apply reachable_cache_injective.
Qed.

Lemma step_cache_kept w w' part entry :
  step shape directiveClass w w' →
  partToInstance w !! part = Some entry →
  partToInstance w' !! part = Some entry.
Proof.
  destruct 1 as [props p w|w w' Hcache _]; intros Hc; [|by rewrite Hcache].
  destruct (directiveFn_frame props p w) as (_ & _ & _ & Hother & Hsame & _).
  destruct (decide (part = p)) as [->|Hne]; [by apply Hsame|].
  by rewrite Hother.
Qed.


(** *** Exceptions of user code *)



(** *** Several binding sites *)


(** *** The generated function *)

Lemma renderOnce_registry props part (w : World I) :
  functions (renderOnce shape directiveClass props part w).1 = Pos.succ (functions w)
  ∧ directives (renderOnce shape directiveClass props part w).1
    = directives_set (FunRef (functions w)) (directives w).
Proof.
  rewrite renderOnce_called.
  by destruct (directiveFn_frame props part (called w)) as (-> & -> & _).
Qed.

Lemma renderAll_registry propss part : ∀ w : World I,
  (functions w ≤ functions (renderAll shape directiveClass propss part w))%positive
  ∧ ∀ o, directives_has o (directives w) = true →
         directives_has o (directives (renderAll shape directiveClass propss part w)) = true.
Proof.
  induction propss as [|props propss IH]; intros w; simpl; [done|].
  destruct (renderOnce_registry props part w) as [Hf Hd].
  destruct (IH (renderOnce shape directiveClass props part w).1) as [Hle Hhas].
  split.
  { rewrite Hf in Hle. etrans; [|exact Hle]. apply Pos.lt_le_incl, Pos.lt_succ_diag_r. }
  intros o Ho. apply Hhas. rewrite Hd, directives_has_set, Ho. apply orb_true_r.
Qed.

(** X7: in class mode the generated function constructs and renders
    nothing: it creates a new function, tags it and returns it, and leaves
    the cache, the instances and the legacy parts alone. The function it
    returns is a directive, is the one that looks the binding site up, and
    differs from every function the generated function returns later, which
    leaves it tagged. *)
Theorem generated_function_new_and_tagged :
  (∀ props (w : World I),
     ∃ d,
       directive shape (AClass directiveClass) props w = (called w, Ok d)
       ∧ fid d = FunRef (functions w)
       ∧ call d = directiveFn shape directiveClass props
       ∧ isDirective (VObject (fid d)) (directives (called w)) = true
       ∧ partToInstance (called w) = partToInstance w
       ∧ instances (called w) = instances w
       ∧ log (called w) = log w)
  ∧ (∀ props props' propss part (w w1 w2 : World I) d1 d2,
       directive shape (AClass directiveClass) props w = (w1, Ok d1) →
       directive shape (AClass directiveClass) props'
         (renderAll shape directiveClass propss part w1) = (w2, Ok d2) →
       fid d1 ≠ fid d2
       ∧ isDirective (VObject (fid d1)) (directives w2) = true
       ∧ isDirective (VObject (fid d2)) (directives w2) = true).
Proof.
  split.
  - intros props w. eexists. split; [reflexivity|]. simpl.
    repeat split. rewrite isDirective_function, directives_has_set.
    by rewrite bool_decide_eq_true_2.
  - intros props props' propss part w w1 w2 d1 d2 [= <- <-] [= <- <-]. simpl.
    destruct (renderAll_registry propss part (called w)) as [Hle Hhas].
    change (Pos.succ (functions w)
            ≤ functions (renderAll shape directiveClass propss part (called w)))%positive
      in Hle.
    split.
    { intros [= Heq].
      change (functions w
              = functions (renderAll shape directiveClass propss part (called w))) in Heq.
      rewrite <- Heq in Hle.
      apply Pos.le_succ_l in Hle. by apply Pos.lt_irrefl in Hle. }
    rewrite !isDirective_function, !directives_has_set.
    split; [|by rewrite bool_decide_eq_true_2].
    rewrite Hhas; [apply orb_true_r|]. simpl.
    by rewrite directives_has_set, bool_decide_eq_true_2.
Qed.

End AdapterFrame.

(** ** Further properties of asynchronous directives *)

Section AsyncRuns.
Variable shape : Part → LegacyPart.

Lemma setValue_fields connected value this :
  ddPart (setValue shape connected value this).1 = ddPart this
  ∧ renderedYet (setValue shape connected value this).1 = true.
Proof.
  destruct (renderedYet this) eqn:H.
  - rewrite (setValue_rendered shape connected value this H). by destruct this.
  - by rewrite (setValue_first shape connected value this H).
Qed.

Lemma setValue_gated_calls connected value this :
  renderedYet this = true →
  setValue shape connected value this
  = (this, gated_calls shape (ddPart this) (connected, value)).
Proof.
  intros H. rewrite (setValue_rendered shape connected value this H).
  destruct this as [part rendered]. simpl in H. by subst rendered.
Qed.

Lemma setValues_rendered pushes this :
  renderedYet this = true →
  setValues shape pushes this = (this, flat_map (gated_calls shape (ddPart this)) pushes).
Proof.
  intros H. induction pushes as [|[connected value] pushes IH]; simpl; [done|].
  by rewrite (setValue_gated_calls connected value this H), IH.
Qed.

Lemma site_calls_gated_calls part q push :
  site_calls q (gated_calls shape part push)
  = if decide (q = part) then gated_calls shape part push else [].
Proof.
  unfold gated_calls.
  destruct (decide (q = part)) as [->|Hne].
  - repeat case_match; simpl; rewrite ?bool_decide_eq_true_2; done.
  - repeat case_match; simpl; rewrite ?bool_decide_eq_false_2; done.
Qed.

(** X8: the calls that a series of [setValue] calls makes on the legacy
    part, each call with the connectivity at its time. The first push of a
    never-rendered instance is always written; each later one is written
    unless the host node exists and is detached at that time, whatever
    happened to earlier pushes; every call goes to the part the instance was
    constructed for, and the instance ends rendered. *)
Theorem setValues_from_new push pushes this :
  renderedYet this = false →
  setValues shape (push :: pushes) this
  = ({| ddPart := ddPart this; renderedYet := true |},
     [ESetValue (ddPart this) push.2; ECommit (ddPart this)]
       ++ flat_map (gated_calls shape (ddPart this)) pushes)
  ∧ site_calls (ddPart this) (setValues shape (push :: pushes) this).2
    = (setValues shape (push :: pushes) this).2
  ∧ ∀ q, q ≠ ddPart this → site_calls q (setValues shape (push :: pushes) this).2 = [].
Proof.
  intros H.
  assert (setValues shape (push :: pushes) this
          = ({| ddPart := ddPart this; renderedYet := true |},
             [ESetValue (ddPart this) push.2; ECommit (ddPart this)]
               ++ flat_map (gated_calls shape (ddPart this)) pushes)) as ->.
  { simpl. rewrite (setValue_first shape push.1 push.2 this H).
    by rewrite setValues_rendered. }
  split; [done|]. simpl.
  assert (∀ q, site_calls q (flat_map (gated_calls shape (ddPart this)) pushes)
               = if decide (q = ddPart this)
                 then flat_map (gated_calls shape (ddPart this)) pushes else []) as Hflat.
  { intros q. induction pushes as [|p pushes IH]; simpl; [by case_decide|].
    rewrite site_calls_app, IH, site_calls_gated_calls. case_decide; [done|].
    done. }
  split.
  - rewrite !bool_decide_eq_true_2 by done.
    change (ESetValue (ddPart this) push.2 :: ECommit (ddPart this)
              :: site_calls (ddPart this)
                   (flat_map (gated_calls shape (ddPart this)) pushes)
            = ESetValue (ddPart this) push.2 :: ECommit (ddPart this)
                :: flat_map (gated_calls shape (ddPart this)) pushes).
    rewrite Hflat. by case_decide.
  - intros q Hne. rewrite !bool_decide_eq_false_2 by congruence.
    change (site_calls q (flat_map (gated_calls shape (ddPart this)) pushes) = []).
    rewrite Hflat. by case_decide.
Qed.

End AsyncRuns.

Section AsyncAdapter.
Context {U : Type}.
Variable shape : Part → LegacyPart.
Variable sub : DirectiveClass U.

Lemma update_extends_base modernPart props (this : AsyncInstance U) :
  base (update (extendsAsyncDirective sub) modernPart props this).1 = base this.
Proof.
  unfold update, extendsAsyncDirective. simpl.
  by destruct (update_override sub).
Qed.

Lemma updates_extends_base modernPart propss : ∀ this : AsyncInstance U,
  base (updates (extendsAsyncDirective sub) modernPart propss this).1 = base this.
Proof.
  induction propss as [|props propss IH]; intros this; simpl; [done|].
  pose proof (update_extends_base modernPart props this) as Hb.
  destruct (update (extendsAsyncDirective sub) modernPart props this) as [this' r].
  specialize (IH this').
  destruct (updates (extendsAsyncDirective sub) modernPart propss this').
  simpl in *. congruence.
Qed.

Lemma construct_extends_base modernPart (this : AsyncInstance U) :
  construct (extendsAsyncDirective sub) modernPart = Ok this →
  base this = AsyncDirective_new modernPart.
Proof. simpl. destruct (construct sub modernPart); [|done]. by intros [= <-]. Qed.

Lemma bound_to_key_emit_all calls (w : World (AsyncInstance U)) :
  bound_to_key w → bound_to_key (foldl (λ w e, emit e w) w calls).
Proof.
  intros Hb part mp i. destruct (log_emit_all calls w) as (_ & -> & ->). apply Hb.
Qed.

Lemma bound_to_key_update instance modernPart props this (w : World (AsyncInstance U)) :
  instances w !! instance = Some this →
  bound_to_key w →
  bound_to_key
    (after_update instance modernPart props
       (update (extendsAsyncDirective sub) modernPart props this).1 w).
Proof.
  intros Hi Hb part mp i Hc. simpl in Hc. destruct (Hb part mp i Hc) as (Hp & this' & Hi' & Hd).
  split; [done|]. simpl. destruct (decide (instance = i)) as [<-|Hne].
  - rewrite lookup_insert_eq. eexists. split; [done|].
    rewrite update_extends_base. congruence.
  - rewrite lookup_insert_ne by done. eauto.
Qed.

Lemma bound_to_key_call props part (w : World (AsyncInstance U)) :
  bound_to_key w →
  bound_to_key (directiveFn shape (extendsAsyncDirective sub) props part w).1.
Proof.
  intros Hb.
  destruct (directiveFn_cases shape (extendsAsyncDirective sub) props part w)
    as [(mp & i & this & Hc & Hi & ->)
       |[(_ & ->)
        |[(Hc & e & _ & ->)
         |[(Hc & mp & e & _ & _ & ->)
          |(Hc & mp & this & Ht & Hnew & ->)]]]]; simpl; try done.
  - by apply bound_to_key_emit_all, bound_to_key_update.
  - apply bound_to_key_emit_all, bound_to_key_update.
    { apply after_new_lookup. }
    destruct (legacyPartToPart_known shape part mp Ht) as [Hpart _].
    intros p mp' i Hp. simpl in Hp. simpl.
    destruct (decide (part = p)) as [<-|Hne].
    + rewrite lookup_insert_eq in Hp. injection Hp as <- <-.
      split; [done|]. rewrite lookup_insert_eq. eexists. split; [done|].
      by rewrite (construct_extends_base mp this Hnew).
    + rewrite lookup_insert_ne in Hp by done.
      destruct (Hb p mp' i Hp) as (Hp' & this' & Hi' & Hd). split; [done|].
      rewrite lookup_insert_ne; [eauto|]. intros <-.
      by rewrite fresh_instance in Hi'.
Qed.

Lemma bound_to_key_push instance value (w : World (AsyncInstance U)) :
  bound_to_key w →
  bound_to_key (AsyncDirective_setValue shape instance value w).1.
Proof.
  intros Hb. destruct (instances w !! instance) as [this|] eqn:Hi.
  - destruct (AsyncDirective_setValue_run shape w instance this value Hi)
      as (_ & _ & Hinst & Hcache).
    intros part mp i Hc. rewrite Hcache in Hc.
    destruct (Hb part mp i Hc) as (Hp & this' & Hi' & Hd). split; [done|].
    rewrite Hinst. destruct (decide (instance = i)) as [<-|Hne].
    + rewrite lookup_insert_eq. eexists. split; [done|]. simpl.
      destruct (setValue_fields shape (isConnected w) value (base this)) as [-> _].
      congruence.
    + rewrite lookup_insert_ne by done. eauto.
  - unfold AsyncDirective_setValue. by rewrite Hi.
Qed.

Lemma async_reachable_bound_to_key w :
  async_reachable shape sub w → bound_to_key w.
Proof.
  induction 1 as [| w w' _ IH Hstep].
  - intros part mp i Hc. simpl in Hc. by rewrite lookup_empty in Hc.
  - destruct Hstep as [props part w|instance value w|w w' Hcache Hinst].
    + by apply bound_to_key_call.
    + by apply bound_to_key_push.
    + intros part mp i Hc. rewrite Hcache in Hc. rewrite Hinst. by apply IH.
Qed.

(** X9: however renders and pushes interleave, the instance cached for a
    binding site stays bound to that site: its [ddPart] is the key of its
    cache entry. So a value pushed through it is written to the site the
    adapter writes to, if it is written at all, and to no other. *)
Theorem pushes_reach_their_site w part modernPart instance value :
  async_reachable shape sub w →
  partToInstance w !! part = Some (modernPart, instance) →
  (∃ this, instances w !! instance = Some this ∧ ddPart (base this) = part)
  ∧ (AsyncDirective_setValue shape instance value w).2 = Ok ()
  ∧ (log (AsyncDirective_setValue shape instance value w).1 = log w
     ∨ log (AsyncDirective_setValue shape instance value w).1
       = log w ++ [ESetValue part value; ECommit part])
  ∧ ∀ q, q ≠ part →
      site_calls q (log (AsyncDirective_setValue shape instance value w).1)
      = site_calls q (log w).
Proof.
  intros Hreach Hc.
  destruct (async_reachable_bound_to_key w Hreach part modernPart instance Hc)
    as (_ & this & Hi & Hd).
  split; [eauto|].
  destruct (AsyncDirective_setValue_run shape w instance this value Hi)
    as (-> & -> & _).
  split; [done|].
  assert ((setValue shape (isConnected w) value (base this)).2 = []
          ∨ (setValue shape (isConnected w) value (base this)).2
            = [ESetValue part value; ECommit part]) as [->| ->].
  { destruct (renderedYet (base this)) eqn:Hr.
    - rewrite (setValue_rendered shape _ value _ Hr), Hd. simpl.
      repeat case_match; auto.
    - rewrite (setValue_first shape _ value _ Hr), Hd. auto. }
  - rewrite app_nil_r. auto.
  - split; [auto|]. intros q Hne. rewrite site_calls_app. simpl.
    rewrite !bool_decide_eq_false_2 by congruence. by rewrite app_nil_r.
Qed.

(** X10: the write-backs of the adapter do not count as a first render of
    the asynchronous directive. After the render that constructed the
    instance and any number of further renders, the first value the author
    pushes is written to the binding site, whatever the connectivity of its
    host node. *)
Theorem first_push_after_renders props propss part w modernPart own value :
  partToInstance w !! part = None →
  legacyPartToPart shape part = Ok modernPart →
  construct sub modernPart = Ok own →
  ∃ instance,
    partToInstance
      (renderAll shape (extendsAsyncDirective sub) (props :: propss) part w) !! part
    = Some (modernPart, instance)
    ∧ (AsyncDirective_setValue shape instance value
         (renderAll shape (extendsAsyncDirective sub) (props :: propss) part w)).2
      = Ok ()
    ∧ log (AsyncDirective_setValue shape instance value
             (renderAll shape (extendsAsyncDirective sub) (props :: propss) part w)).1
      = log (renderAll shape (extendsAsyncDirective sub) (props :: propss) part w)
          ++ [ESetValue part value; ECommit part].
Proof.
  intros Hc Ht Hnew.
  assert (construct (extendsAsyncDirective sub) modernPart
          = Ok {| base := AsyncDirective_new modernPart; fields := own |}) as Hnew'
    by (simpl; by rewrite Hnew).
  destruct (renderAll_new shape (extendsAsyncDirective sub) props propss part w
              modernPart _ Hc Ht Hnew') as (_ & HcN & HiN & _).
  exists (fresh (dom (instances w))). split; [done|].
  destruct (AsyncDirective_setValue_run shape _ _ _ value HiN) as (-> & -> & _).
  split; [done|]. rewrite setValue_first.
  - rewrite updates_extends_base. simpl.
    by destruct (legacyPartToPart_known shape part modernPart Ht) as [-> _].
  - by rewrite updates_extends_base.
Qed.

End AsyncAdapter.

(** ** The further properties at concrete inputs *)

Lemma cache_invariant_witness :
  reachable demo_shape Echo two_sites_world
  ∧ partToInstance two_sites_world !! 5%positive = Some (new_AttributePart 5, 2%positive)
  ∧ legacyPartToPart demo_shape 5 = Ok (new_AttributePart 5)
  ∧ is_Some (instances two_sites_world !! 2%positive).
Proof.
  assert (reachable demo_shape Echo two_sites_world) as Hreach.
  { apply reachable_renderOnce, reachable_renderOnce, reachable_fresh. }
  split; [exact Hreach|]. split; [reflexivity|].
  destruct (proj1 (cache_invariant demo_shape Echo two_sites_world Hreach)
              5%positive (new_AttributePart 5) 2%positive eq_refl) as (Ht & _ & Hsome).
  split; [exact Ht|exact Hsome].
Defined.





Lemma generated_function_new_and_tagged_witness :
  ∃ w1 w2 d1 d2,
    directive demo_shape (AClass Echo) [VString "x"] (demo_world true) = (w1, Ok d1)
    ∧ directive demo_shape (AClass Echo) [VString "y"]
        (renderAll demo_shape Echo [[VString "x"]] 5%positive w1) = (w2, Ok d2)
    ∧ fid d1 ≠ fid d2
    ∧ isDirective (VObject (fid d1)) (directives w2) = true.
Proof.
  eexists _, _, _, _. split; [reflexivity|]. split; [reflexivity|].
  destruct (proj2 (generated_function_new_and_tagged demo_shape Echo)
              [VString "x"] [VString "y"] [[VString "x"]] 5%positive
              (demo_world true) _ _ _ _ eq_refl eq_refl) as (Hne & Htagged & _).
  split; [exact Hne|exact Htagged].
Defined.

Lemma setValues_from_new_witness :
  renderedYet (AsyncDirective_new (new_ChildPart 1)) = false
  ∧ setValues demo_shape
      [(λ _, false, VString "a"); (λ _, false, VString "b"); (λ _, true, VString "c")]
      (AsyncDirective_new (new_ChildPart 1))
    = ({| ddPart := 1; renderedYet := true |},
       [ESetValue 1 (VString "a"); ECommit 1; ESetValue 1 (VString "c"); ECommit 1]).
Proof.
  split; [reflexivity|].
  apply (setValues_from_new demo_shape (λ _, false, VString "a")
           [(λ _, false, VString "b"); (λ _, true, VString "c")]
           (AsyncDirective_new (new_ChildPart 1))).
  reflexivity.
Defined.

Lemma pushes_reach_their_site_witness :
  async_reachable demo_shape Echo detached_world
  ∧ partToInstance detached_world !! 1%positive = Some (new_ChildPart 1, 1%positive)
  ∧ ∀ q, q ≠ 1%positive →
      site_calls q (log (AsyncDirective_setValue demo_shape 1 (VString "late")
                           detached_world).1)
      = site_calls q (log detached_world).
Proof.
  assert (async_reachable demo_shape Echo detached_world) as Hreach.
  { eapply async_reachable_step; [|apply async_push].
    eapply async_reachable_step;
      [|exact (async_call demo_shape Echo [VString "x"] 1%positive
                 (called (demo_world false)))].
    eapply async_reachable_step; [apply async_reachable_fresh|].
    by apply async_other. }
  split; [exact Hreach|]. split; [reflexivity|].
  apply (pushes_reach_their_site demo_shape Echo detached_world 1%positive
           (new_ChildPart 1) 1%positive (VString "late") Hreach).
  reflexivity.
Defined.

Lemma first_push_after_renders_witness :
  partToInstance (demo_world (I:=AsyncInstance Z) false) !! 1%positive = None
  ∧ legacyPartToPart demo_shape 1 = Ok (new_ChildPart 1)
  ∧ construct Echo (new_ChildPart 1) = Ok 0%Z
  ∧ ∃ instance,
      log (AsyncDirective_setValue demo_shape instance (VString "pushed")
             (renderAll demo_shape AsyncEcho [[VString "x"]; [VString "y"]] 1%positive
                (demo_world false))).1
      = log (renderAll demo_shape AsyncEcho [[VString "x"]; [VString "y"]] 1%positive
               (demo_world false))
          ++ [ESetValue 1 (VString "pushed"); ECommit 1].
Proof.
  do 3 (split; [reflexivity|]).
  destruct (first_push_after_renders demo_shape Echo [VString "x"] [[VString "y"]]
              1%positive (demo_world false) (new_ChildPart 1) 0%Z (VString "pushed"))
    as (instance & _ & _ & Hlog); [reflexivity..|].
  exists instance. exact Hlog.
Defined.

(** * Constructors that render binding sites *)

Section RenderingTheory.
Context {I : Type}.
Variable shape : Part → LegacyPart.
Variable directiveClass : DirectiveClass I.
Variable nested : Nested.

Lemma directiveFnR_unfold depth props part :
  directiveFnR shape directiveClass nested depth props part
  = directiveFn_rendering shape directiveClass nested
      (nested_render shape directiveClass nested depth) props part.
Proof. by destruct depth. Qed.

Lemma renderOnceR_called depth props part (w : World I) :
  renderOnceR shape directiveClass nested depth props part w
  = directiveFnR shape directiveClass nested depth props part (called w).
Proof. reflexivity. Qed.

Lemma rendering_hit render props part (w : World I) entry :
  partToInstance w !! part = Some entry →
  directiveFn_rendering shape directiveClass nested render props part w
  = directiveFn shape directiveClass props part w.
Proof.
  intros Hc. unfold directiveFn_rendering, directiveFn, bind, gets. by rewrite Hc.
Qed.

Lemma rendering_miss render props part (w : World I) :
  partToInstance w !! part = None →
  directiveFn_rendering shape directiveClass nested render props part w
  = match legacyPartToPart shape part with
    | Throw e => (w, Throw e)
    | Ok modernPart =>
        match render_each render
                (nested (length (constructions (log (emit (ETranslate part modernPart) w))))
                   modernPart)
                (emit (ENew modernPart) (emit (ETranslate part modernPart) w)) with
        | (w', Throw e) => (w', Throw e)
        | (w', Ok _) =>
            match construct directiveClass modernPart with
            | Throw e => (w', Throw e)
            | Ok this =>
                directiveFn shape directiveClass props part
                  (cached_new part modernPart this w')
            end
        end
    end.
Proof.
  intros Hc. unfold directiveFn_rendering at 1, new_rendering.
  unfold bind, gets, lift, modify, ret. rewrite Hc.
  destruct (legacyPartToPart shape part) as [modernPart|e]; [|reflexivity].
  simpl.
  destruct (render_each render _ _) as [w' [[]|e]]; [|reflexivity].
  destruct (construct directiveClass modernPart) as [this|e]; [|reflexivity].
  simpl. unfold directiveFn, bind, gets. simpl. by rewrite lookup_insert_eq.
Qed.

Lemma site_constructions_app part l1 l2 :
  site_constructions part (l1 ++ l2)
  = site_constructions part l1 ++ site_constructions part l2.
Proof. apply List.filter_app. Qed.

Lemma site_constructions_write_back part q r :
  site_constructions part (write_back q r) = [].
Proof. by destruct r. Qed.

Lemma site_frame_refl part (w : World I) : site_frame part w w.
Proof. by repeat split. Qed.

Lemma site_frame_trans part (w1 w2 w3 : World I) :
  site_frame part w1 w2 → site_frame part w2 w3 → site_frame part w1 w3.
Proof.
  intros (Hc1 & Hl1 & Hd1) (Hc2 & Hl2 & Hd2). split; [congruence|].
  split; [congruence|]. set_solver.
Qed.

Lemma settled_frame part (w w' : World I) site :
  site_frame part w w' → settled part w site → settled part w' site.
Proof. intros (Hc & _) Hs Heq. rewrite Hc. by apply Hs. Qed.

(** A call that finds its site cached runs no constructor and no
    translation. *)
Lemma hit_frame part props q (w : World I) entry :
  partToInstance w !! q = Some entry →
  site_frame part w (directiveFn shape directiveClass props q w).1.
Proof.
  intros Hq.
  destruct (directiveFn_cases shape directiveClass props q w)
    as [(mp & i & this & Hc & Hi & ->)
       |[(_ & ->)
        |[(Hc & _)|[(Hc & _)|(Hc & _)]]]]; try congruence.
  - unfold site_frame.
    destruct (log_emit_all (write_back q (update directiveClass mp props this).2)
                (after_update i mp props (update directiveClass mp props this).1 w))
      as (-> & -> & ->). simpl.
    split; [done|]. split.
    + rewrite !site_constructions_app. simpl.
      by rewrite site_constructions_write_back, !app_nil_r.
    + rewrite dom_insert_L. set_solver.
  - apply site_frame_refl.
Qed.

Section Frame.
Variable part : Part.

Local Abbreviation allowed := (allowed nested part).

Lemma allowed_frame (w w' : World I) : site_frame part w w' → allowed w → allowed w'.
Proof. intros Hf Ha earlier partInfo r Hr. eapply settled_frame; [done|]. by eapply Ha. Qed.

Lemma render_each_frame (render : list Value → Part → M I unit) :
  (∀ props q w, allowed w → settled part w q → site_frame part w (render props q w).1) →
  ∀ renders w,
    allowed w →
    (∀ r, r ∈ renders → settled part w r.2) →
    site_frame part w (render_each render renders w).1.
Proof.
  intros Hrender. induction renders as [|r renders IH]; intros w Ha Hs; simpl.
  - apply site_frame_refl.
  - unfold bind.
    pose proof (Hrender r.1 r.2 w Ha (Hs r ltac:(left))) as Hf.
    destruct (render r.1 r.2 w) as [w' [[]|e]]; simpl in *; [|done].
    eapply site_frame_trans; [exact Hf|]. apply IH.
    + by eapply allowed_frame.
    + intros r' Hr'. eapply settled_frame; [done|]. apply Hs. by right.
Qed.

Lemma rendering_frame (render : list Value → Part → M I unit) :
  (∀ props q w, allowed w → settled part w q → site_frame part w (render props q w).1) →
  ∀ props q w,
    allowed w → settled part w q →
    site_frame part w
      (directiveFn_rendering shape directiveClass nested render props q w).1.
Proof.
  intros Hrender props q w Ha Hs.
  destruct (partToInstance w !! q) as [entry|] eqn:Hq.
  { rewrite (rendering_hit render props q w entry Hq). by eapply hit_frame. }
  assert (q ≠ part) as Hne.
  { intros ->. destruct (Hs eq_refl) as [? Hsome]. congruence. }
  rewrite (rendering_miss render props q w Hq).
  destruct (legacyPartToPart shape q) as [mp|e] eqn:Ht; [|apply site_frame_refl].
  destruct (legacyPartToPart_known shape q mp Ht) as [Hmp _].
  set (w2 := emit (ENew mp) (emit (ETranslate q mp) w)).
  assert (site_frame part w w2) as Hf2.
  { split; [done|]. split; [|done]. simpl. rewrite !site_constructions_app. simpl.
    rewrite Hmp, !bool_decide_eq_false_2 by done. by rewrite !app_nil_r. }
  pose proof (render_each_frame render Hrender
                (nested (length (constructions (log (emit (ETranslate q mp) w)))) mp) w2
                (allowed_frame _ _ Hf2 Ha)) as Hf3.
  destruct (render_each render _ w2) as [w3 r] eqn:Hrun. simpl in Hf3.
  assert (site_frame part w w3) as Hf.
  { eapply site_frame_trans; [exact Hf2|]. apply Hf3.
    intros r' Hr'. eapply settled_frame; [exact Hf2|]. by eapply Ha. }
  destruct r as [[]|e]; [|done].
  destruct (construct directiveClass mp) as [this|e]; [|done].
  eapply site_frame_trans; [exact Hf|].
  eapply site_frame_trans; [|eapply hit_frame; simpl; by rewrite lookup_insert_eq].
  split; [simpl; by rewrite lookup_insert_ne|]. split; [done|]. simpl.
  rewrite dom_insert_L. set_solver.
Qed.

Lemma directiveFnR_frame depth : ∀ props q w,
  allowed w → settled part w q →
  site_frame part w (directiveFnR shape directiveClass nested depth props q w).1.
Proof.
  induction depth as [|depth IH]; intros props q w Ha Hs; rewrite directiveFnR_unfold;
    (apply rendering_frame; [|exact Ha|exact Hs]).
  - intros props' q' w' _ _. apply site_frame_refl.
  - intros props' q' w' Ha' Hs'. simpl. rewrite renderOnceR_called.
    assert (site_frame part w' (called w')) as Hf by by repeat split.
    eapply site_frame_trans; [exact Hf|]. apply IH.
    + by eapply allowed_frame.
    + by eapply settled_frame.
Qed.

Lemma renderOnceR_frame depth props q w :
  allowed w → settled part w q →
  site_frame part w (renderOnceR shape directiveClass nested depth props q w).1.
Proof.
  intros Ha Hs. rewrite renderOnceR_called.
  assert (site_frame part w (called w)) as Hf by by repeat split.
  eapply site_frame_trans; [exact Hf|]. apply directiveFnR_frame.
  - by eapply allowed_frame.
  - by eapply settled_frame.
Qed.

End Frame.







(** X2: an entry that [partToInstance] holds when a render starts is still
    there, unchanged, when the render ends, whatever the constructors of the
    class render and however deep: every call for that site, nested or not,
    finds the entry and neither translates nor constructs. So across any
    series of renders a cached site keeps the modern Part and the instance
    it has. *)
Theorem entry_kept_across_renders depth renders part entry : ∀ w : World I,
  partToInstance w !! part = Some entry →
  partToInstance (rendersR shape directiveClass nested depth renders w) !! part
  = Some entry
  ∧ site_constructions part (log (rendersR shape directiveClass nested depth renders w))
    = site_constructions part (log w).
Proof.
  induction renders as [|r renders IH]; intros w Hc; simpl; [done|].
  destruct (renderOnceR_frame part depth r.1 r.2 w) as (Hc1 & Hl1 & _).
  { intros earlier partInfo r' _ _. by rewrite Hc. }
  { intros _. by rewrite Hc. }
  destruct (IH (renderOnceR shape directiveClass nested depth r.1 r.2 w).1) as [-> ->].
  { by rewrite Hc1. }
  by rewrite Hl1.
Qed.

End RenderingTheory.



Lemma entry_kept_across_renders_witness :
  partToInstance reentered_world !! 5%positive = Some (new_AttributePart 5, 2%positive)
  ∧ partToInstance
      (rendersR demo_shape Echo own_site_once 1
         [([VString "y"], 5%positive); ([VString "z"], 1%positive)] reentered_world)
      !! 5%positive
    = Some (new_AttributePart 5, 2%positive).
Proof.
  split; [reflexivity|].
  apply (entry_kept_across_renders demo_shape Echo own_site_once 1
           [([VString "y"], 5%positive); ([VString "z"], 1%positive)] 5%positive
           (new_AttributePart 5, 2%positive) reentered_world).
  reflexivity.
Defined.

(** ** The two adapters *)

(** For a class whose constructors render nothing, the adapter with
    rendering constructors does what the adapter above does: a call of the
    directive function ends the same way, with the same cache and the same
    instances, and has made the same constructor calls and the same calls on
    every legacy part. *)
Lemma directiveFnR_renders_nothing {I} (shape : Part → LegacyPart)
    (directiveClass : DirectiveClass I) depth props part (w : World I) :
  (directiveFnR shape directiveClass renders_nothing depth props part w).2
  = (directiveFn shape directiveClass props part w).2
  ∧ partToInstance (directiveFnR shape directiveClass renders_nothing depth props part w).1
    = partToInstance (directiveFn shape directiveClass props part w).1
  ∧ instances (directiveFnR shape directiveClass renders_nothing depth props part w).1
    = instances (directiveFn shape directiveClass props part w).1
  ∧ constructions
      (log (directiveFnR shape directiveClass renders_nothing depth props part w).1)
    = constructions (log (directiveFn shape directiveClass props part w).1)
  ∧ ∀ site,
      site_calls site
        (log (directiveFnR shape directiveClass renders_nothing depth props part w).1)
      = site_calls site (log (directiveFn shape directiveClass props part w).1).
Proof.
  rewrite directiveFnR_unfold.
  destruct (partToInstance w !! part) as [entry|] eqn:Hc.
  { by rewrite (rendering_hit shape directiveClass renders_nothing _ props part w entry Hc). }
  rewrite (rendering_miss shape directiveClass renders_nothing _ props part w Hc).
  rewrite (directiveFn_miss shape directiveClass props part w Hc).
  destruct (legacyPartToPart shape part) as [mp|e]; [|done].
  unfold renders_nothing. simpl.
  destruct (construct directiveClass mp) as [this|e].
  2:{ simpl. unfold constructions, site_calls.
      repeat split; [|intros site]; rewrite ?List.filter_app; simpl;
        by rewrite ?app_nil_r. }
  set (w1 := cached_new part mp this (emit (ENew mp) (emit (ETranslate part mp) w))).
  assert (partToInstance w1 !! part = Some (mp, fresh (dom (instances w)))
          ∧ instances w1 !! fresh (dom (instances w)) = Some this) as [Hc1 Hi1]
    by (simpl; by rewrite !lookup_insert_eq).
  destruct (after_new_lookup part mp this w) as [Hc2 Hi2].
  rewrite (directiveFn_hit shape directiveClass props part w1 _ _ _ Hc1 Hi1).
  rewrite (directiveFn_hit shape directiveClass props part _ _ _ _ Hc2 Hi2).
  simpl.
  destruct (update directiveClass mp props this) as [this' [value|e]]; simpl;
    (repeat split; [|intros site]);
    unfold constructions, site_calls; rewrite ?List.filter_app; simpl;
    by rewrite ?app_nil_r.
Qed.
